(** * STIXCore products: registry dispatch, merge, split and level transitions

    A shallow embedding of [stixcore/products/product.py], and of the choice
    of the processing steps in [stixcore/processing/pipeline_cli.py].

    Tables ([astropy.table.QTable]) are modelled row-major, as lists of
    records, and the values of integer columns as integers ([Z]).  The
    [index] and [control_index] columns are columns of unsigned integers
    whose width is chosen outside this module ([get_min_uint], the FITS
    reader): [__add__], which writes new ids into them, takes the two widths
    and what numpy does with a value that does not fit; [combine] is
    [__add__] on tables that stack and on columns that hold every new id.
    The dates of a time range are computed by sunpy and are a collaborator.

    [__add__] and [split_to_files] build their result tables from copies
    (slices, [vstack], fancy indexing), so they are modelled on table values.
    The [SCETimeRange] objects of [idb_versions] are mutable and shared, so
    they live in an explicit heap; the level transitions pass whole tables by
    reference, so they are modelled over a store of tables. *)

From Stdlib Require Import ZArith Lia.
From stdpp Require Import base tactics option list list_numbers sorting
  strings pretty gmap.

Local Open Scope Z_scope.

(** ** Exceptions and results *)

Inductive Exception : Type :=
  | TypeError (msg : string)
  | IndexError
  | ValueError
  | KeyError
  | AttributeError
  | NoMatchError
  | MultipleMatchError (n_matches : nat)
  | TableMergeError
  | OverflowError.

Inductive Result (A : Type) : Type :=
  | Ok (a : A)
  | Raise (e : Exception).
Arguments Ok {A} a.
Arguments Raise {A} e.

Global Instance Result_ret : MRet Result := λ A a, Ok a.
Global Instance Result_bind : MBind Result := λ A B k r,
  match r with
  | Ok a => k a
  | Raise e => Raise e
  end.

(** ** Spacecraft time

    [stixcore.time] is a collaborator of the product module; only the shapes
    of its values and the order of [SCETime] are needed here. *)

Record SCETime : Type := mkSCETime { coarse : Z; fine : Z }.
Record SCETimeDelta : Type := mkSCETimeDelta { dcoarse : Z; dfine : Z }.
Record SCETimeRange : Type := mkSCETimeRange { start : SCETime; end_ : SCETime }.

(** Modelled from the spec: the comparison of [stixcore.time.SCETime], a
    coarse+fine integer pair, compared coarse first. *)
Definition scet_leb (a b : SCETime) : bool :=
  (coarse a <? coarse b) || ((coarse a =? coarse b) && (fine a <=? fine b)).

Definition scet_le (a b : SCETime) : Prop := scet_leb a b = true.

Global Instance scet_le_dec : RelDecision scet_le.
Proof. intros a b. unfold scet_le. apply _. Defined.

Definition scet_min (a b : SCETime) : SCETime := if scet_leb a b then a else b.
Definition scet_max (a b : SCETime) : SCETime := if scet_leb a b then b else a.

(** Modelled from the spec: [SCETimeRange.expand], which enlarges [start] and
    [end] so that the range covers [other]. *)
Definition expand (self other : SCETimeRange) : SCETimeRange :=
  {| start := scet_min (start self) (start other);
     end_ := scet_max (end_ self) (end_ other) |}.

(** [covers r o]: the range [r] is a superset of the range [o]. *)
Definition covers (r o : SCETimeRange) : Prop :=
  scet_le (start r) (start o) ∧ scet_le (end_ o) (end_ r).

Abbreviation Header := (list (string * string)).

(** The functions of the time service and of numpy/astropy that the product
    module calls. *)
Class Collaborators : Type := {
  (** [np.around(t.as_float().value, 2)], counted in hundredths. *)
  time_float : SCETime → Z;
  (** [t - dt / 2] and [t + dt / 2], the ends of [scet_timerange]. *)
  sub_half : SCETime → SCETimeDelta → SCETime;
  add_half : SCETime → SCETimeDelta → SCETime;
  (** [SCETime.get_scedays]: the instrument-clock day number. *)
  get_scedays : SCETime → Z;
  (** [SCETime.to_time] / [SCETimeRange.to_timerange]: the UTC instant, in
      whole seconds since the epoch (day boundaries are whole seconds, so the
      sub-second part never decides a comparison with a day boundary). *)
  to_time : SCETime → Z;
  (** The value [SCETimeRange()] a [defaultdict(SCETimeRange)] creates. *)
  default_range : SCETimeRange;
  (** [fits.Header.copy(strip=True)]. *)
  header_copy : Header → Header;
  (** [SCETimeRange.to_timerange().get_dates()], a list of consecutive
      dates that sunpy computes from the two ends of the range as it prints
      them: the day number of its first date, and how many dates it has. *)
  dates_first : SCETimeRange → Z;
  dates_count : SCETimeRange → Z
}.

(** ** Tables *)

Record ControlRow : Type := mkControlRow {
  index : Z;
  scet_coarse : Z;
  scet_fine : Z;
  integration_time : Z;
  raw_file : string;
  parent : string
}.

Record DataRow : Type := mkDataRow {
  time : SCETime;
  timedel : SCETimeDelta;
  control_index : Z;
  value : list Z
}.

Abbreviation Control := (list ControlRow).
Abbreviation Data := (list DataRow).
Abbreviation Energies := (list (Z * Z)).

Definition set_index (i : Z) (c : ControlRow) : ControlRow :=
  {| index := i; scet_coarse := scet_coarse c; scet_fine := scet_fine c;
     integration_time := integration_time c; raw_file := raw_file c;
     parent := parent c |}.

Definition set_parent (p : string) (c : ControlRow) : ControlRow :=
  {| index := index c; scet_coarse := scet_coarse c; scet_fine := scet_fine c;
     integration_time := integration_time c; raw_file := raw_file c;
     parent := p |}.

Definition set_control_index (i : Z) (r : DataRow) : DataRow :=
  {| time := time r; timedel := timedel r; control_index := i;
     value := value r |}.

Global Instance SCETime_eq_dec : EqDecision SCETime.
Proof. solve_decision. Defined.
Global Instance SCETimeDelta_eq_dec : EqDecision SCETimeDelta.
Proof. solve_decision. Defined.
Global Instance SCETimeRange_eq_dec : EqDecision SCETimeRange.
Proof. solve_decision. Defined.
Global Instance ControlRow_eq_dec : EqDecision ControlRow.
Proof. solve_decision. Defined.
Global Instance DataRow_eq_dec : EqDecision DataRow.
Proof. solve_decision. Defined.

(** ** Registry and factory *)

Module Factory.

(** The keyword arguments every registered [is_datasource_for] receives. *)
Record Attributes : Type := mkAttributes {
  a_level : option string;
  a_service_type : Z;
  a_service_subtype : Z;
  a_ssid : option Z;
  a_control : Control;
  a_data : Data;
  a_energies : option Energies
}.

Section Dispatch.
Context {W : Type}.

(** [BasicRegistrationFactory]: a dict from widget type to its validation
    function (iterated in insertion order) and an optional default. *)
Record ProductFactory : Type := mkProductFactory {
  registry : list (W * (Attributes → bool));
  default_widget_type : option W
}.

Definition candidates (self : ProductFactory) (args : Attributes) : list W :=
  (filter (λ kv, kv.2 args = true) (registry self)).*1.

Definition _check_registered_widget (self : ProductFactory)
    (args : Attributes) : Result W :=
  let candidate_widget_types := candidates self args in
  let n_matches := length candidate_widget_types in
  candidate_widget_types ←
    (if (n_matches =? 0)%nat then
       match default_widget_type self with
       | None => Raise NoMatchError
       | Some d => Ok [d]
       end
     else if (1 <? n_matches)%nat then
       Raise (MultipleMatchError n_matches)
     else Ok candidate_widget_types);
  match candidate_widget_types with
  | WidgetType :: _ => Ok WidgetType
  | [] => Raise IndexError
  end.
End Dispatch.
Arguments ProductFactory W : clear implicits.

End Factory.

(** ** Products *)

(** The classes of this module that carry [__add__] and [split_to_files]:
    [DefaultProduct(GenericProduct, L1Mixin, L2Mixin)]. *)
Inductive ProductClass : Type := GenericProduct | DefaultProduct.

Global Instance ProductClass_eq_dec : EqDecision ProductClass.
Proof. solve_decision. Defined.

Definition issubclass (c d : ProductClass) : bool :=
  match c, d with
  | GenericProduct, GenericProduct => true
  | GenericProduct, DefaultProduct => false
  | DefaultProduct, _ => true
  end.

(** [f'{cls}'] *)
Definition class_repr (c : ProductClass) : string :=
  match c with
  | GenericProduct => "<class 'stixcore.products.product.GenericProduct'>"
  | DefaultProduct => "<class 'stixcore.products.product.DefaultProduct'>"
  end.

(** A product over a representation [C] of its control table and [D] of its
    data table: table values for merge and split, references into a store
    for the level transitions.  [idb_versions] maps a version to the address
    of its [SCETimeRange] object. *)
Record Product_ (C D : Type) : Type := mkProduct {
  cls : ProductClass;
  service_type : Z;
  service_subtype : Z;
  ssid : option Z;
  type : string;
  name : option string;
  level : option string;
  control : C;
  data : D;
  idb_versions : gmap string nat;
  fits_header : option Header
}.
Arguments mkProduct {C D}.
Arguments cls {C D}.
Arguments service_type {C D}.
Arguments service_subtype {C D}.
Arguments ssid {C D}.
Arguments type {C D}.
Arguments name {C D}.
Arguments level {C D}.
Arguments control {C D}.
Arguments data {C D}.
Arguments idb_versions {C D}.
Arguments fits_header {C D}.

Abbreviation Product := (Product_ Control Data).

Definition isinstance {C D} (p : Product_ C D) (c : ProductClass) : bool :=
  issubclass (cls p) c.

Definition service_name_map : list (Z * string) :=
  [ (1, "tc-verify"); (5, "events"); (6, "memory"); (9, "time");
    (17, "conn-test"); (20, "info-dist"); (22, "context"); (236, "config");
    (237, "params"); (238, "archive"); (239, "diagnostics");
    (300, "low-latency") ].

Definition service_name (service_type : Z) : Result string :=
  match list_find (λ kv, kv.1 = service_type) service_name_map with
  | Some (_, (_, n)) => Ok n
  | None => Raise KeyError
  end.

(** [cls(service_type=..., ..., **kwargs)]: [GenericProduct.__init__] and
    [DefaultProduct.__init__].  [level_kw] is the keyword [level] when the
    caller passes it. *)
Definition new_product {C D} (cls : ProductClass)
    (service_type service_subtype : Z) (ssid : option Z) (control : C)
    (data : D) (idb_versions : gmap string nat)
    (level_kw : option (option string)) : Result (Product_ C D) :=
  match cls with
  | GenericProduct =>
      Ok (mkProduct GenericProduct service_type service_subtype ssid "ql" None
            (default None level_kw) control data idb_versions None)
  | DefaultProduct =>
      let name :=
        match ssid with
        | Some s => if bool_decide (s = 0) then pretty service_subtype
                    else pretty service_subtype +:+ "-" +:+ pretty s
        | None => pretty service_subtype
        end in
      let level := default (Some "L0") level_kw in
      type ← service_name service_type;
      Ok (mkProduct DefaultProduct service_type service_subtype ssid type
            (Some name) level control data idb_versions None)
  end.

Definition set_level {C D} (l : string) (p : Product_ C D) : Product_ C D :=
  mkProduct (cls p) (service_type p) (service_subtype p) (ssid p) (type p)
    (name p) (Some l) (control p) (data p) (idb_versions p) (fits_header p).

(** [p.fits_header = val]: the setter of [FitsHeaderMixin] on the classes that
    mix it in, a plain attribute on the others. *)
Definition set_fits_header `{Collaborators} {C D} (val : option Header)
    (p : Product_ C D) : Result (Product_ C D) :=
  let store h :=
    mkProduct (cls p) (service_type p) (service_subtype p) (ssid p) (type p)
      (name p) (level p) (control p) (data p) (idb_versions p) h in
  match cls p with
  | GenericProduct => Ok (store val)
  | DefaultProduct =>
      match val with
      | Some h => Ok (store (Some (header_copy h)))
      | None => Raise ValueError
      end
  end.

(** [GenericProduct.scet_timerange] *)
Definition scet_timerange `{Collaborators} (data : Data) : Result SCETimeRange :=
  match head data, last data with
  | Some first, Some final =>
      Ok {| start := sub_half (time first) (timedel first);
            end_ := add_half (time final) (timedel final) |}
  | _, _ => Raise IndexError
  end.

(** ** Table operations of astropy and numpy *)

Section TableOps.
Context {A : Type} (key : A → Z).

Fixpoint insert_sorted (x : A) (l : list A) : list A :=
  match l with
  | [] => [x]
  | y :: l' => if key x <=? key y then x :: l else y :: insert_sorted x l'
  end.

(** A stable sort on [key]: [argsort(kind='mergesort')] in [group_by].
    [Table.sort] does not promise the order of ties; none of the statements
    below depends on it. *)
Definition table_sort (l : list A) : list A := foldr insert_sorted [] l.

(** The first row of each run of equal keys. *)
Fixpoint group_heads (prev : option Z) (l : list A) : list A :=
  match l with
  | [] => []
  | x :: l' =>
      if bool_decide (prev = Some (key x)) then group_heads prev l'
      else x :: group_heads (Some (key x)) l'
  end.

(** [astropy.table.unique(t, keys)]: group by key, keep each group's first
    row. *)
Definition unique (l : list A) : list A := group_heads None (table_sort l).
End TableOps.

(** [np.unique(a)]: the sorted distinct values. *)
Definition np_unique (a : list Z) : list Z := unique id a.

(** [a.min()] *)
Definition array_min (a : list Z) : Result Z :=
  match a with
  | [] => Raise ValueError
  | x :: a' => Ok (foldr Z.min x a')
  end.

(** ** Merge: [GenericProduct.__add__] *)

(** [f"s{i}"], [f"o{i}"] *)
Definition old_index_tag (prefix : string) (i : Z) : string :=
  prefix +:+ pretty i.

(** The walk over the data rows that fills [newids] and rewrites
    [control_index], on a column that holds every new id.  Rows carry their
    [old_index] column in front. *)
Fixpoint assign_newids (newids : gmap string Z)
    (rows : list (string * DataRow)) : gmap string Z * list (string * DataRow) :=
  match rows with
  | [] => (newids, [])
  | (oid, row) :: rest =>
      let newids :=
        match newids !! oid with
        | Some _ => newids
        | None => <[oid := Z.of_nat (size newids)]> newids
        end in
      let nid := default 0 (newids !! oid) in
      let '(final, rest') := assign_newids newids rest in
      (final, (oid, set_control_index nid row) :: rest')
  end.

(** The walk over the control rows, on a column that holds every new id:
    rows whose [old_index] is not in [newids] are collected in [del_rows]
    and removed, the others take their new [index]. *)
Definition reindex_control (newids : gmap string Z)
    (control : list (string * ControlRow)) : list (string * ControlRow) :=
  omap (λ '(oid, row),
          match newids !! oid with
          | None => None
          | Some nid => Some (oid, set_index nid row)
          end) control.

(** The heap of [SCETimeRange] objects; an address is a position. *)
Abbreviation Heap := (list SCETimeRange).

Definition deref `{Collaborators} (h : Heap) (a : nat) : SCETimeRange :=
  default default_range (h !! a).

(** [idb_versions[idb_key] = SCETimeRange(start=SCETime(...), end=SCETime(...))]
    for every item of [self.idb_versions]: a fresh object per key. *)
Definition clone_ranges `{Collaborators} (h : Heap) (self_idb : gmap string nat)
    : Heap * gmap string nat :=
  map_fold (λ idb_key a '(h', idb_versions),
              let date_range := deref h' a in
              let fresh :=
                {| start := mkSCETime (coarse (start date_range))
                                      (fine (start date_range));
                   end_ := mkSCETime (coarse (end_ date_range))
                                     (fine (end_ date_range)) |} in
              (h' ++ [fresh], <[idb_key := length h']> idb_versions))
           (h, ∅) self_idb.

(** [idb_versions[idb_key].expand(date_range)] for every item of
    [other.idb_versions]; a missing key first gets a default range. *)
Definition expand_ranges `{Collaborators} (st : Heap * gmap string nat)
    (other_idb : gmap string nat) : Heap * gmap string nat :=
  map_fold (λ idb_key a '(h', idb_versions),
              let '(h', idb_versions, target) :=
                match idb_versions !! idb_key with
                | Some t => (h', idb_versions, t)
                | None => (h' ++ [default_range],
                           <[idb_key := length h']> idb_versions, length h')
                end in
              (<[target := expand (deref h' target) (deref h' a)]> h',
               idb_versions))
           st other_idb.

Definition merge_idb_versions `{Collaborators} (h : Heap)
    (self_idb other_idb : gmap string nat) : Heap * gmap string nat :=
  expand_ranges (clone_ranges h self_idb) other_idb.

Definition stack_data `{Collaborators} (self_start other_start : SCETime)
    (self_data other_data : list (string * DataRow))
    : list (string * DataRow) :=
  if scet_leb self_start other_start then self_data ++ other_data
  else other_data ++ self_data.

Definition data_key `{Collaborators} (r : string * DataRow) : Z :=
  time_float (time r.2).

Definition tagged_data (prefix : string) (d : Data)
    : list (string * DataRow) :=
  (λ r, (old_index_tag prefix (control_index r), r)) <$> d.

Definition tagged_control (prefix : string) (c : Control)
    : list (string * ControlRow) :=
  (λ r, (old_index_tag prefix (index r), r)) <$> c.

(** The table part of [__add__], from the copies of the four tables to
    the removal of the [old_index] columns, on tables that astropy stacks
    and on columns that hold every new id; [self_start] and [other_start]
    are the two [scet_timerange.start]. *)
Definition combine_tables `{Collaborators} (self_start other_start : SCETime)
    (self other : Product) : Control * Data :=
  let other_control := tagged_control "o" (control other) in
  let self_control := tagged_control "s" (control self) in
  let other_data := tagged_data "o" (data other) in
  let self_data := tagged_data "s" (data self) in
  let control := self_control ++ other_control in
  let data := stack_data self_start other_start self_data other_data in
  let data := unique data_key data in
  let data := table_sort data_key data in
  let '(newids, data) := assign_newids ∅ data in
  let control := reindex_control newids control in
  let control := table_sort (λ c, index c.2) control in
  (control.*2, data.*2).

(** [__add__] where the control tables stack and the [index] and
    [control_index] columns hold every new id; [__add__] below has the
    stacking of the control tables and the width of the columns, and is
    [combine] where the two do not matter ([add_combine]). *)
Definition combine `{Collaborators} (h : Heap) (self other : Product)
    : Result (Heap * Product) :=
  if negb (isinstance other (cls self)) then
    Raise (TypeError ("Products must of same type not "
                      +:+ class_repr (cls self) +:+ " and "
                      +:+ class_repr (cls other)))
  else
    self_range ← scet_timerange (data self);
    other_range ← scet_timerange (data other);
    let '(control, data) :=
      combine_tables (start self_range) (start other_range) self other in
    let '(h', idb_versions) :=
      merge_idb_versions h (idb_versions self) (idb_versions other) in
    out ← new_product (cls self) (service_type self) (service_subtype self)
            (ssid self) control data idb_versions (Some (level self));
    Ok (h', out).

(** ** Merge: the stacked control table and the width of the columns *)

(** [vstack((self_control, other_control))] with the [old_index] columns in
    place: the column of a table without rows is made from an empty list
    and holds floats, that of a table with rows holds strings, and astropy
    refuses to stack a column of floats and a column of strings. *)
Definition vstack_control
    (self_control other_control : list (string * ControlRow))
    : Result (list (string * ControlRow)) :=
  match self_control, other_control with
  | [], _ :: _ | _ :: _, [] => Raise TableMergeError
  | _, _ => Ok (self_control ++ other_control)
  end.

Section UintColumns.
Context `{Collaborators}.
(** What numpy stores when a value that an unsigned column of this many
    bits cannot hold is assigned to one of its items: older versions store
    a wrapped value, newer ones raise [OverflowError] and store nothing. *)
Variable out_of_range : Z → Z → option Z.

(** [row[name] = value] on a column of unsigned integers of [bits] bits:
    the value that the row holds afterwards. *)
Definition setitem_uint (bits value : Z) : Result Z :=
  if bool_decide (0 ≤ value < 2 ^ bits) then Ok value
  else match out_of_range bits value with
       | Some stored => Ok stored
       | None => Raise OverflowError
       end.

(** [assign_newids] on a [control_index] column of [bits] bits. *)
Fixpoint assign_newids_uint (bits : Z) (newids : gmap string Z)
    (rows : list (string * DataRow))
    : Result (gmap string Z * list (string * DataRow)) :=
  match rows with
  | [] => Ok (newids, [])
  | (oid, row) :: rest =>
      let newids :=
        match newids !! oid with
        | Some _ => newids
        | None => <[oid := Z.of_nat (size newids)]> newids
        end in
      let nid := default 0 (newids !! oid) in
      stored ← setitem_uint bits nid;
      '(final, rest') ← assign_newids_uint bits newids rest;
      Ok (final, (oid, set_control_index stored row) :: rest')
  end.

(** [reindex_control] on an [index] column of [bits] bits. *)
Fixpoint reindex_control_uint (bits : Z) (newids : gmap string Z)
    (control : list (string * ControlRow))
    : Result (list (string * ControlRow)) :=
  match control with
  | [] => Ok []
  | (oid, row) :: rest =>
      match newids !! oid with
      | None => reindex_control_uint bits newids rest
      | Some nid =>
          stored ← setitem_uint bits nid;
          rest' ← reindex_control_uint bits newids rest;
          Ok ((oid, set_index stored row) :: rest')
      end
  end.

(** [GenericProduct.__add__], statement by statement.  [index_bits] and
    [control_index_bits] are the widths of the [index] column of the
    stacked control table and of the [control_index] column of the stacked
    data table, which are columns of unsigned integers. *)
Definition __add__ (index_bits control_index_bits : Z) (h : Heap)
    (self other : Product) : Result (Heap * Product) :=
  if negb (isinstance other (cls self)) then
    Raise (TypeError ("Products must of same type not "
                      +:+ class_repr (cls self) +:+ " and "
                      +:+ class_repr (cls other)))
  else
    let other_control := tagged_control "o" (control other) in
    let self_control := tagged_control "s" (control self) in
    let other_data := tagged_data "o" (data other) in
    let self_data := tagged_data "s" (data self) in
    control ← vstack_control self_control other_control;
    self_range ← scet_timerange (data self);
    other_range ← scet_timerange (data other);
    let data := stack_data (start self_range) (start other_range)
                  self_data other_data in
    let data := unique data_key data in
    let data := table_sort data_key data in
    '(newids, data) ← assign_newids_uint control_index_bits ∅ data;
    control ← reindex_control_uint index_bits newids control;
    let control := table_sort (λ c, index c.2) control in
    let '(h', idb_versions) :=
      merge_idb_versions h (idb_versions self) (idb_versions other) in
    out ← new_product (cls self) (service_type self) (service_subtype self)
            (ssid self) control.*2 data.*2 idb_versions (Some (level self));
    Ok (h', out).
End UintColumns.

(** ** Split: [GenericProduct.split_to_files] *)

(** What a generator does when it is run to its end: the values it yields,
    and the exception that ends it, if one does. *)
Definition Generated (A : Type) : Type := list A * option Exception.

Fixpoint generate {A D} (body : D → option (Result A)) (days : list D)
    : Generated A :=
  match days with
  | [] => ([], None)
  | day :: days' =>
      match body day with
      | None => generate body days'
      | Some (Raise e) => ([], Some e)
      | Some (Ok out) =>
          let '(outs, e) := generate body days' in (out :: outs, e)
      end
  end.

(** The body under [if len(i[0]) > 0:], the same in both branches: [sel] is
    [self.data[i]]. *)
Definition fragment `{Collaborators} (self : Product) (sel : Data)
    : Result Product :=
  let control_indices := np_unique (control_index <$> sel) in
  let control :=
    filter (λ c, index c ∈ control_indices) (control self) in
  control_index_min ← array_min control_indices;
  let data :=
    (λ r, set_control_index (control_index r - control_index_min) r) <$> sel in
  let control :=
    (λ c, set_index (index c - control_index_min) c) <$> control in
  out ← new_product (cls self) (service_type self) (service_subtype self)
          (ssid self) control data (idb_versions self) (Some (level self));
  match fits_header self with
  | Some hd => set_fits_header (Some hd) out
  | None => Ok out
  end.

(** Rows of instrument-clock day [day]: [(scedays >= ds) & (scedays < de)]. *)
Definition rows_of_sceday `{Collaborators} (data : Data) (day : Z) : Data :=
  filter (λ r, day ≤ get_scedays (time r) < day + 1) data.

Definition seconds_per_day : Z := 86400.

(** Rows of UTC day number [day]: [(utc_times >= ds) & (utc_times < de)]. *)
Definition rows_of_utc_day `{Collaborators} (data : Data) (day : Z) : Data :=
  filter (λ r, day * seconds_per_day ≤ to_time (time r)
               < day * seconds_per_day + seconds_per_day) data.

(** [TimeRange.get_dates]: [dates_count] consecutive dates from the first
    one on.  Which dates these are is the business of sunpy; the statements
    that need the day of a row among them say so. *)
Definition get_dates `{Collaborators} (r : SCETimeRange) : list Z :=
  seqZ (dates_first r) (dates_count r).

Definition split_day `{Collaborators} (self : Product)
    (rows_of : Data → Z → Data) (day : Z) : option (Result Product) :=
  let sel := rows_of (data self) day in
  if (0 <? length sel)%nat then Some (fragment self sel) else None.

Definition split_to_files `{Collaborators} (self : Product)
    : Generated Product :=
  if bool_decide (level self = Some "L0") then
    let scedays := (λ r, get_scedays (time r)) <$> data self in
    let days := np_unique scedays in
    generate (split_day self rows_of_sceday) days
  else
    match scet_timerange (data self) with
    | Raise e => ([], Some e)
    | Ok range => generate (split_day self rows_of_utc_day) (get_dates range)
    end.

(** ** Level transitions: [L1Mixin.from_level0], [L2Mixin.from_level1]

    The new product receives the tables of its predecessor by reference, so
    both are modelled as references into a store. *)

Record Store : Type := mkStore {
  controls : list Control;
  datas : list Data
}.

Abbreviation ProductRef := (Product_ nat nat).

(** [t.replace_column('parent', [parent] * len(t))] on the table at [a]. *)
Definition replace_parent_column (st : Store) (a : nat) (parent : string)
    : Store :=
  match controls st !! a with
  | Some t => mkStore (<[a := set_parent parent <$> t]> (controls st)) (datas st)
  | None => st
  end.

(** The classes that mix in [L1Mixin] and [L2Mixin]. *)
Definition has_level_mixins (c : ProductClass) : bool :=
  match c with
  | GenericProduct => false
  | DefaultProduct => true
  end.

(** [p.fits_header]: the property of [FitsHeaderMixin], or the plain
    attribute, which a [GenericProduct] need not have. *)
Definition get_fits_header {C D} (p : Product_ C D) : Result (option Header) :=
  match cls p, fits_header p with
  | GenericProduct, None => Raise AttributeError
  | _, val => Ok val
  end.

Section LevelTransitions.
Context `{Collaborators}.
(** [engineering.raw_to_engineering_product(l1, IDBManager.instance)] *)
Variable raw_to_engineering_product : Store → ProductRef → Store.

Definition from_level0 (st : Store) (cls : ProductClass)
    (l0product : ProductRef) (parent : string)
    : Store * Result ProductRef :=
  if negb (has_level_mixins cls) then (st, Raise AttributeError) else
  match new_product cls (service_type l0product) (service_subtype l0product)
          (ssid l0product) (control l0product) (data l0product)
          (idb_versions l0product) None with
  | Raise e => (st, Raise e)
  | Ok l1 =>
      let st := replace_parent_column st (control l1) parent in
      let l1 := set_level "L1" l1 in
      let st := raw_to_engineering_product st l1 in
      (st, Ok l1)
  end.

(** [parent] is already the name ([parent.name] of a [Path], or the
    string itself). *)
Definition from_level1 (st : Store) (cls : ProductClass)
    (l1product : ProductRef) (parent : string)
    : Store * Result (list ProductRef) :=
  if negb (has_level_mixins cls) then (st, Raise AttributeError) else
  match new_product cls (service_type l1product) (service_subtype l1product)
          (ssid l1product) (control l1product) (data l1product)
          (idb_versions l1product) None with
  | Raise e => (st, Raise e)
  | Ok l2 =>
      let st := replace_parent_column st (control l2) parent in
      let l2 := set_level "L2" l2 in
      (st, val ← get_fits_header l1product;
           l2 ← set_fits_header val l2;
           Ok [l2])
  end.
End LevelTransitions.

(** ** A concrete time service

    One instance of the collaborators, to evaluate the definitions on
    concrete tables: 65536 fine ticks per second, the time key rounded to
    hundredths of a second (the fine part read as a 16-bit field), days of
    86400 seconds, and as dates of a range every day from the day of its
    start to the day of its end. *)

Definition ticks (t : SCETime) : Z := coarse t * 65536 + fine t.
Definition of_ticks (n : Z) : SCETime := mkSCETime (n `div` 65536) (n `mod` 65536).
Definition delta_ticks (d : SCETimeDelta) : Z := dcoarse d * 65536 + dfine d.
Definition fine16 (t : SCETime) : Z := Z.max 0 (Z.min 65535 (fine t)).

Definition reference_clock : Collaborators := {|
  time_float t := coarse t * 100 + (fine16 t * 200 + 65536) `div` 131072;
  sub_half t d := of_ticks (ticks t - delta_ticks d `div` 2);
  add_half t d := of_ticks (ticks t + delta_ticks d `div` 2);
  get_scedays t := coarse t `div` 86400;
  to_time t := coarse t;
  default_range := mkSCETimeRange (mkSCETime (2 ^ 32 - 1) 65535) (mkSCETime 0 0);
  header_copy hd := hd;
  dates_first r := coarse (start r) `div` 86400;
  dates_count r :=
    coarse (end_ r) `div` 86400 - coarse (start r) `div` 86400 + 1
|}.

(** ** Registration: [BaseProduct.__init_subclass__] *)

Section Registration.
Context {W : Type} `{EqDecision W}.

(** [d[k] = v] on a dict: the value of a key that is present is replaced in
    place, a new key goes to the end. *)
Fixpoint dict_set {V} (k : W) (v : V) (d : list (W * V)) : list (W * V) :=
  match d with
  | [] => [(k, v)]
  | (k', v') :: d' =>
      if decide (k = k') then (k, v) :: d' else (k', v') :: dict_set k v d'
  end.

(** [is_datasource_for] is what the attribute lookup on the new class
    gives: its own or an inherited validation function, or nothing. *)
Definition __init_subclass__ (_registry : list (W * (Factory.Attributes → bool)))
    (cls : W) (is_datasource_for : option (Factory.Attributes → bool))
    : list (W * (Factory.Attributes → bool)) :=
  match is_datasource_for with
  | Some validation => dict_set cls validation _registry
  | None => _registry
  end.
End Registration.

(** ** [ControlSci.from_packets]: the [time_stamp] column *)

(** The arguments [coarse] and [fine] of [SCETime(coarse, fine)], row by
    row: [np.any] looks at the whole column, and the scalar [fine = 0] of
    the second branch is broadcast to every row. *)
Definition time_stamp_coarse_fine (time_stamp : list Z) : list (Z * Z) :=
  if bool_decide (Exists (λ t, t > 2 ^ 32 - 1) time_stamp) then
    (λ t, (Z.shiftr t 16, Z.land t (Z.shiftl 1 16 - 1))) <$> time_stamp
  else (λ t, (t, 0)) <$> time_stamp.

(** ** [GenericProduct.getLeveL0Packets]: the record of the IDB versions *)

(** Modelled from the spec: [SCETimeRange.expand] with a time, which
    enlarges the range so that it covers the time. *)
Definition expand_time (self : SCETimeRange) (t : SCETime) : SCETimeRange :=
  expand self (mkSCETimeRange t t).

(** The loop over the packets that fills [idb_versions], a
    [defaultdict(SCETimeRange)]: [packets] holds [packet.get_idb().version]
    and [packet.data_header.datetime] of each packet, as they are after its
    decompression and conversion. *)
Definition getLeveL0Packets `{Collaborators} (h : Heap)
    (packets : list (string * SCETime)) : Heap * gmap string nat :=
  foldl (λ '(h', idb_versions) '(version, datetime),
           let '(h', idb_versions, target) :=
             match idb_versions !! version with
             | Some t => (h', idb_versions, t)
             | None => (h' ++ [default_range],
                        <[version := length h']> idb_versions, length h')
             end in
           (<[target := expand_time (deref h' target) datetime]> h',
            idb_versions))
        (h, ∅) packets.

(** * The command line of the pipeline: [pipeline_cli] *)

Module Pipeline.

(** [class ProductLevel(Enum)] *)
Inductive ProductLevel : Type := TM | LB | L0 | L1 | L2 | ALL.

Global Instance ProductLevel_eq_dec : EqDecision ProductLevel.
Proof. solve_decision. Defined.

Definition value (e : ProductLevel) : Z :=
  match e with
  | TM => -2 | LB => -1 | L0 => 0 | L1 => 1 | L2 => 2 | ALL => 100
  end.

(** [e.name], which is also [str(e)]. *)
Definition name (e : ProductLevel) : string :=
  match e with
  | TM => "TM" | LB => "LB" | L0 => "L0" | L1 => "L1" | L2 => "L2"
  | ALL => "ALL"
  end.

(** The members in the order the iteration over the enum gives them. *)
Definition members : list ProductLevel := [TM; LB; L0; L1; L2; ALL].

(** The files that [main] has collected per level; a level that was never
    touched has no files. *)
Record Processed (File : Type) : Type := mkProcessed {
  at_LB : list File;
  at_L0 : list File;
  at_L1 : list File;
  at_L2 : list File
}.
Arguments mkProcessed {File}.
Arguments at_LB {File}.
Arguments at_L0 {File}.
Arguments at_L1 {File}.
Arguments at_L2 {File}.

(** The parsed arguments that the processing part of [main] reads. *)
Record Namespace : Type := mkNamespace {
  start_level : string;
  end_level : string;
  filter_ : option string
}.

Section Cli.
Context {File : Type}.
(** [str.upper] *)
Variable upper : string → string.
(** The block under [if ProductLevel.LB.value >= args.start_level.value],
    up to the call of [process_tmtc_to_levelbinary]: the level-binary files
    it gives for the input files and the filter. *)
Variable tm_to_lb : list File → option string → Result (list File).
(** [(fitsdir / level).rglob(FILTER)] *)
Variable rglob : string → string → list File.
(** [process_fits_files] of the three level processors. *)
Variable l0_proc : list File → Result (list File).
Variable l1_proc : list File → Result (list File).
Variable l2_proc : list File → Result (list File).

Definition from_str (label : string) : ProductLevel :=
  let label := upper label in
  default TM (head (filter (λ e, name e = label) members)).

(** [not FILTER] *)
Definition not_ (FILTER : option string) : bool :=
  match FILTER with
  | Some (String _ _) => false
  | _ => true
  end.

(** The block under [if args.start_level == ProductLevel.Lk]: the files of
    the level below that the run starts from, and the new [FILTER]. *)
Definition seed (FILTER : option string) (input_files : list File)
    (level_dir : string) : list File * option string :=
  let FILTER := if not_ FILTER then Some "*.fits" else FILTER in
  let has_input_files := (0 <? length input_files)%nat in
  (if has_input_files then input_files
   else rglob level_dir (default "" FILTER), FILTER).

(** The processing part of [main], from the conversion of the two levels
    on; [input_files] is the list read from [args.input_files], empty when
    there is none. *)
Definition main (args : Namespace) (input_files : list File)
    : Result (Processed File) :=
  let start_level := from_str (start_level args) in
  let end_level := from_str (end_level args) in
  if value end_level <? value start_level then Raise ValueError else
  let FILTER := filter_ args in
  '(lb, FILTER) ←
    (if value LB >=? value start_level then
       out ← tm_to_lb input_files FILTER; Ok (out, None)
     else Ok ([], FILTER));
  let '(lb, FILTER) :=
    if decide (start_level = L0) then
      let '(files, FILTER) := seed FILTER input_files "LB" in
      (lb ++ files, FILTER)
    else (lb, FILTER) in
  '(l0, FILTER) ←
    (if (value L0 >=? value start_level) && (value end_level >=? value L0)
     then out ← l0_proc lb; Ok (out, None)
     else Ok ([], FILTER));
  let '(l0, FILTER) :=
    if decide (start_level = L1) then
      let '(files, FILTER) := seed FILTER input_files "L0" in
      (l0 ++ files, FILTER)
    else (l0, FILTER) in
  '(l1, FILTER) ←
    (if (value L1 >=? value start_level) && (value end_level >=? value L1)
     then out ← l1_proc l0; Ok (out, None)
     else Ok ([], FILTER));
  let '(l1, FILTER) :=
    if decide (start_level = L2) then
      let '(files, FILTER) := seed FILTER input_files "L1" in
      (l1 ++ files, FILTER)
    else (l1, FILTER) in
  '(l2, FILTER) ←
    (if (value L2 >=? value start_level) && (value end_level >=? value L2)
     then out ← l2_proc l1; Ok (out, None)
     else Ok ([], FILTER));
  Ok (mkProcessed lb l0 l1 l2).
End Cli.

End Pipeline.

(** * Vocabulary of the statements *)

(** ** Products and time *)

(** [p] is as its class's [__init__] leaves an object: for a
    [DefaultProduct], [type] is the entry of [service_name_map]. *)
Definition constructed {C D} (p : Product_ C D) : Prop :=
  match cls p with
  | GenericProduct => True
  | DefaultProduct => service_name (service_type p) = Ok (type p)
  end.


(** The day of a time grows with the time. *)
Definition day_functions_monotone `{Collaborators} : Prop :=
  ∀ t u, scet_le t u → get_scedays t ≤ get_scedays u ∧ to_time t ≤ to_time u.

(** No sample starts after its centre or ends before it: durations are not
    negative. *)
Definition range_contains_samples `{Collaborators} (d : Data) : Prop :=
  ∀ r, r ∈ d →
    to_time (sub_half (time r) (timedel r)) ≤ to_time (time r)
    ∧ to_time (time r) ≤ to_time (add_half (time r) (timedel r)).

(** ** Sorted tables *)

Definition key_le {A} (key : A → Z) (a b : A) : Prop := key a ≤ key b.
Definition key_lt {A} (key : A → Z) (a b : A) : Prop := key a < key b.

(** [r] is the first row of [l] with its key. *)
Definition first_of {A} (key : A → Z) (l : list A) (r : A) : Prop :=
  head (filter (λ x, key x = key r) l) = Some r.


(** ** Merge *)

(** [newids] numbers its keys 0, 1, ..., size - 1. *)
Definition ids_dense (m : gmap string Z) : Prop :=
  (map_to_list m).*2 ≡ₚ seqZ 0 (Z.of_nat (size m)).

(** A data row with the [control_index] that [final] gives its tag. *)
Definition renumber (final : gmap string Z) (p : string * DataRow)
    : string * DataRow :=
  (p.1, set_control_index (default 0 (final !! p.1)) p.2).

(** The data rows that survive the merge, before they are renumbered. *)
Definition merged_rows `{Collaborators} (sa sb : SCETime) (A B : Product)
    : list (string * DataRow) :=
  unique data_key
    (stack_data sa sb (tagged_data "s" (data A)) (tagged_data "o" (data B))).


Definition row_key `{Collaborators} (r : DataRow) : Z := time_float (time r).

(** No row of [X] has the rounded time key of a row of [Y]. *)
Definition keys_disjoint `{Collaborators} (X Y : Data) : Prop :=
  ∀ r s, r ∈ X → s ∈ Y → row_key r ≠ row_key s.

(** The [control_index] values of a data table: the packets it refers
    to. *)
Definition referenced (d : Data) : gset Z := list_to_set (control_index <$> d).

(** A column of unsigned integers of [bits] bits holds a new id for every
    packet that the data tables of [A] and [B] refer to. *)
Definition packets_fit (bits : Z) (A B : Product) : Prop :=
  Z.of_nat (size (referenced (data A)) + size (referenced (data B)))
  ≤ 2 ^ bits.

(** What holds of a heap [h'] and a dict [d] built on top of the heap [h]:
    [h] is untouched and every address of [d] is new. *)
Record built (h : Heap) (h' : Heap) (d : gmap string nat) : Prop := {
  built_frame : ∀ a, (a < length h)%nat → h' !! a = h !! a;
  built_length : (length h ≤ length h')%nat;
  built_fresh : ∀ k a, d !! k = Some a → (length h ≤ a < length h')%nat
}.

(** Every range that [src] stores in [h] is covered by the range that [d]
    stores in [h'] under the same key. *)
Definition covered `{Collaborators} (h h' : Heap) (d src : gmap string nat)
    : Prop :=
  ∀ k a, src !! k = Some a →
    ∃ a', d !! k = Some a' ∧ covers (deref h' a') (deref h a).

(** ** Split *)

(** The day a row is filed under, by level. *)
Definition day_of `{Collaborators} (P : Product) (r : DataRow) : Z :=
  if bool_decide (level P = Some "L0") then get_scedays (time r)
  else to_time (time r) `div` seconds_per_day.

Definition rows_of `{Collaborators} (P : Product) : Data → Z → Data :=
  if bool_decide (level P = Some "L0") then rows_of_sceday
  else rows_of_utc_day.

(** The days [split_to_files] iterates over. *)
Definition split_days `{Collaborators} (P : Product) : list Z :=
  if bool_decide (level P = Some "L0") then
    np_unique ((λ r, get_scedays (time r)) <$> data P)
  else
    match scet_timerange (data P) with
    | Ok range => get_dates range
    | Raise _ => []
    end.

(** The fragment yielded for [day], if one is. *)
Definition yielded `{Collaborators} (P : Product) (day : Z) : option Product :=
  match split_day P (rows_of P) day with
  | Some (Ok out) => Some out
  | _ => None
  end.

(** The days that the loop visits include the day of every row. *)
Definition days_covered `{Collaborators} (P : Product) : Prop :=
  ∀ r, r ∈ data P → day_of P r ∈ split_days P.

(** The fragment of [day] is one of the fragments that the generator
    yields. *)
Definition emitted `{Collaborators} (P : Product) (day : Z) : Prop :=
  ∃ f, f ∈ (split_to_files P).1 ∧ yielded P day = Some f.

(** The dates of a range are the days from the day of its start to the day
    of its end. *)
Definition dates_by_floor `{Collaborators} : Prop :=
  ∀ r, dates_first r = to_time (start r) `div` seconds_per_day
       ∧ dates_count r
         = to_time (end_ r) `div` seconds_per_day
           - to_time (start r) `div` seconds_per_day + 1.

(** What a generator body yields on [d], if it yields. *)
Definition yield_of {A D} (body : D → option (Result A)) (d : D) : option A :=
  match body d with
  | Some (Ok out) => Some out
  | _ => None
  end.


(** ** Merge, continued *)

Global Instance key_lt_dec {A} (key : A → Z) : RelDecision (key_lt key).
Proof. intros a b. unfold key_lt. apply _. Defined.

(** A data row without its reference to the control table. *)
Definition bare (r : DataRow) : SCETime * SCETimeDelta * list Z :=
  (time r, timedel r, value r).

(** The data rows of both operands in the order [__add__] stacks them:
    the operand whose range starts first (self on a tie) comes first. *)
Definition stacked_rows `{Collaborators} (self_start other_start : SCETime)
    (self other : Product) : Data :=
  if scet_leb self_start other_start then data self ++ data other
  else data other ++ data self.

(** The range that the merge of two [idb_versions] dicts is to hold under
    [k]: the range of [self], expanded by the range of [other]; a key of
    [other] alone starts from the default range. *)
Definition merged_range `{Collaborators} (h : Heap)
    (self_idb other_idb : gmap string nat) (k : string)
    : option SCETimeRange :=
  match self_idb !! k, other_idb !! k with
  | Some a, Some b => Some (expand (deref h a) (deref h b))
  | Some a, None => Some (deref h a)
  | None, Some b => Some (expand default_range (deref h b))
  | None, None => None
  end.

(** * Example products *)

Definition control_row (i : Z) (parent : string) : ControlRow :=
  mkControlRow i 0 0 0 "solo_TM.xml" parent.

(** A sample at [coarse] seconds and [fine] ticks, of control row [ci]. *)
Definition sample (coarse fine ci v : Z) : DataRow :=
  mkDataRow (mkSCETime coarse fine) (mkSCETimeDelta 0 0) ci [v].

Definition generic_product (c : Control) (d : Data)
    (idb : gmap string nat) : Product :=
  mkProduct GenericProduct 21 6 (Some 30) "ql" None (Some "L0") c d idb None.

Definition default_product (c : Control) (d : Data)
    (idb : gmap string nat) : Product :=
  mkProduct DefaultProduct 5 3 None "events" (Some "3") (Some "L0") c d idb
    None.

(** Two products of one packet each whose samples interleave: times 0.0 and
    1.0, and times 0.5 and 2.0. *)
Definition example_A : Product :=
  generic_product [control_row 0 "a.fits"]
    [sample 0 0 0 10; sample 1 0 0 11] {[ "2.26.34" := 0%nat ]}.
Definition example_B : Product :=
  generic_product [control_row 0 "b.fits"]
    [sample 0 32768 0 20; sample 2 0 0 21]
    {[ "2.26.34" := 1%nat; "2.26.35" := 2%nat ]}.

(** The ranges that the [idb_versions] of the examples point to. *)
Definition example_heap : Heap :=
  [ mkSCETimeRange (mkSCETime 0 0) (mkSCETime 1 0);
    mkSCETimeRange (mkSCETime 0 32768) (mkSCETime 2 0);
    mkSCETimeRange (mkSCETime 2 0) (mkSCETime 2 0) ].

Definition example_default : Product :=
  default_product [control_row 0 "d.fits"] [sample 5 0 0 50] ∅.
Definition example_empty_default : Product := default_product [] [] ∅.

(** A product with a control row and no data row. *)
Definition example_no_data : Product :=
  default_product [control_row 0 "e.fits"] [] ∅.


(** numpy before version 2: the value modulo 2 ^ bits. *)
Definition numpy_wrap (bits value : Z) : option Z :=
  Some (value `mod` 2 ^ bits).


Definition sceday (day : Z) : Z := day * 86400.

(** An L0 product with samples on the instrument days 100, 101 and 103. *)
Definition example_three_days : Product :=
  generic_product
    [control_row 0 "l0.fits"; control_row 1 "l0.fits"; control_row 2 "l0.fits"]
    [sample (sceday 100) 0 0 1; sample (sceday 100 + 1) 0 0 2;
     sample (sceday 101) 0 1 3; sample (sceday 103) 0 2 4] ∅.


(** The fragment of day 103 of the L0 product. *)
Definition example_fragment_103 : Product :=
  Eval vm_compute in
    default example_three_days
      (last (@split_to_files reference_clock example_three_days).1).

(** An L1 product whose rows are not in the order of their times: its
    second row is on day 105, between a first row on day 100 and a last row
    on day 101. *)
Definition example_unsorted_L1 : Product :=
  mkProduct DefaultProduct 5 3 None "events" (Some "3") (Some "L1")
    [control_row 0 "l1.fits"]
    [sample (sceday 100) 0 0 1; sample (sceday 105) 0 0 2;
     sample (sceday 101) 0 0 3] ∅ None.

(** An L0 product as a merge leaves it: packet 0 has a sample on day 100 and
    one on day 101, packet 1 one on day 100, packet 2 one on day 101. *)
Definition example_interleaved : Product :=
  generic_product
    [control_row 0 "l0.fits"; control_row 1 "l0.fits"; control_row 2 "l0.fits"]
    [sample (sceday 100) 0 0 1; sample (sceday 100 + 1) 0 1 2;
     sample (sceday 101) 0 0 3; sample (sceday 101 + 1) 0 2 4] ∅.

(** A store with one control table and one data table, and an L1 product
    that refers to them. *)
Definition example_store : Store :=
  mkStore [[control_row 0 "solo_L0.fits"]] [[sample 5 0 0 50]].
Definition example_ref : ProductRef :=
  mkProduct DefaultProduct 5 3 None "events" (Some "3") (Some "L1") 0%nat
    0%nat ∅ (Some [("LEVEL", "L1")]).

(** ** Examples for the further properties *)

(** A product whose first sample has the time of the second sample of
    [example_A], and whose time range starts later. *)
Definition example_D : Product :=
  generic_product [control_row 0 "d.fits"]
    [sample 1 0 0 99; sample 3 0 0 33] ∅.

(** Merges of the examples, evaluated with the concrete time service. *)
Definition example_merge_DA : Heap * Product :=
  Eval vm_compute in
    match @combine reference_clock example_heap example_D example_A with
    | Ok out => out
    | Raise _ => (example_heap, example_D)
    end.
Definition example_merge_AB : Heap * Product :=
  Eval vm_compute in
    match @combine reference_clock example_heap example_A example_B with
    | Ok out => out
    | Raise _ => (example_heap, example_A)
    end.
Definition example_merge_BA : Heap * Product :=
  Eval vm_compute in
    match @combine reference_clock example_heap example_B example_A with
    | Ok out => out
    | Raise _ => (example_heap, example_B)
    end.
Definition example_merge_AA : Heap * Product :=
  Eval vm_compute in
    match @combine reference_clock example_heap example_A example_A with
    | Ok out => out
    | Raise _ => (example_heap, example_A)
    end.

(** The fragments of the days 100 and 101 of the L0 product, and their
    merge. *)
Definition example_fragment_100 : Product :=
  Eval vm_compute in
    default example_three_days
      (@yielded reference_clock example_three_days 100).
Definition example_fragment_101 : Product :=
  Eval vm_compute in
    default example_three_days
      (@yielded reference_clock example_three_days 101).
Definition example_merge_100_101 : Heap * Product :=
  Eval vm_compute in
    match @combine reference_clock example_heap example_fragment_100
            example_fragment_101 with
    | Ok out => out
    | Raise _ => (example_heap, example_three_days)
    end.

(** A registry with one class, which accepts service type 21, and the
    attributes of a quick-look product. *)
Definition example_validation (a : Factory.Attributes) : bool :=
  bool_decide (Factory.a_service_type a = 21).
Definition example_registry
    : list (ProductClass * (Factory.Attributes → bool)) :=
  [(GenericProduct, example_validation)].
Definition example_attributes : Factory.Attributes :=
  Factory.mkAttributes (Some "L0") 21 6 (Some 30) [] [] None.

(** Upper case of the ASCII letters, for the labels of the command line. *)
Definition ascii_upper_char (c : Ascii.ascii) : Ascii.ascii :=
  let n := Ascii.nat_of_ascii c in
  if ((97 <=? n) && (n <=? 122))%nat then Ascii.ascii_of_nat (n - 32)
  else c.
Fixpoint ascii_upper (s : string) : string :=
  match s with
  | EmptyString => EmptyString
  | String c s' => String (ascii_upper_char c) (ascii_upper s')
  end.

(** * Properties *)

(** ** Registry dispatch *)

Section DispatchFacts.
Import Factory.

Lemma candidates_length {W} (f : ProductFactory W) args :
  length (candidates f args)
  = length (filter (λ kv, kv.2 args = true) (registry f)).
Proof. unfold candidates. by rewrite length_fmap. Qed.

(** C4: with N the number of registered predicates that accept the
    attributes, dispatch returns the default variant or raises
    [NoMatchError] when N = 0, returns the one matching variant when N = 1,
    and raises [MultipleMatchError] when N > 1. *)
Theorem dispatch_by_number_of_matches {W} (f : ProductFactory W)
    (args : Attributes) :
  let matching := filter (λ kv, kv.2 args = true) (registry f) in
  let N := length matching in
  (N = 0%nat →
     _check_registered_widget f args
     = match default_widget_type f with
       | Some d => Ok d
       | None => Raise NoMatchError
       end)
  ∧ (N = 1%nat →
       ∃ w p, matching = [(w, p)] ∧ _check_registered_widget f args = Ok w)
  ∧ ((N > 1)%nat →
       _check_registered_widget f args = Raise (MultipleMatchError N)).
Proof.
  intros matching N. unfold _check_registered_widget.
  rewrite candidates_length. fold matching. fold N.
  unfold candidates. fold matching.
  split; [|split]; intros HN.
  - rewrite HN. simpl. by destruct (default_widget_type f).
  - rewrite HN. simpl. subst N.
    destruct matching as [|[w p] [|? ?]]; simplify_eq/=.
    by exists w, p.
  - destruct (Nat.eqb_spec N 0); [lia|].
    destruct (Nat.ltb_spec 1 N); [done|lia].
Qed.

End DispatchFacts.

(** ** Time ranges and the merge of [idb_versions] *)

Lemma scet_le_spec a b :
  scet_le a b ↔ coarse a < coarse b ∨ (coarse a = coarse b ∧ fine a ≤ fine b).
Proof.
  unfold scet_le, scet_leb.
  rewrite orb_true_iff, andb_true_iff, Z.ltb_lt, Z.eqb_eq, Z.leb_le. done.
Qed.

Global Instance scet_le_refl : Reflexive scet_le.
Proof. intros a. apply scet_le_spec. lia. Qed.
Global Instance scet_le_trans : Transitive scet_le.
Proof. intros a b c. rewrite !scet_le_spec. lia. Qed.
Lemma scet_le_total a b : scet_le a b ∨ scet_le b a.
Proof. rewrite !scet_le_spec. lia. Qed.
Lemma scet_leb_false a b : scet_leb a b = false → scet_le b a.
Proof.
  intros Hf. destruct (scet_le_total a b) as [Hab|]; [|done].
  unfold scet_le in Hab. congruence.
Qed.

Global Instance covers_refl : Reflexive covers.
Proof. intros r. split; reflexivity. Qed.
Global Instance covers_trans : Transitive covers.
Proof. intros r s t [? ?] [? ?]. split; etrans; eauto. Qed.

Lemma expand_covers_self r o : covers (expand r o) r.
Proof.
  unfold expand, covers, scet_min, scet_max; simpl. split.
  - destruct (scet_leb (start r) (start o)) eqn:E; [reflexivity|].
    by apply scet_leb_false.
  - destruct (scet_leb (end_ r) (end_ o)) eqn:E; [done|reflexivity].
Qed.

Lemma expand_covers_other r o : covers (expand r o) o.
Proof.
  unfold expand, covers, scet_min, scet_max; simpl. split.
  - destruct (scet_leb (start r) (start o)) eqn:E; [done|reflexivity].
  - destruct (scet_leb (end_ r) (end_ o)) eqn:E; [reflexivity|].
    by apply scet_leb_false.
Qed.

Section Idb.
Context `{Collaborators}.

Lemma deref_app_l (h ext : Heap) a :
  (a < length h)%nat → deref (h ++ ext) a = deref h a.
Proof. intros. unfold deref. by rewrite lookup_app_l. Qed.

Lemma built_deref h h' d a :
  built h h' d → (a < length h)%nat → deref h' a = deref h a.
Proof. intros Hb Ha. unfold deref. by rewrite (built_frame _ _ _ Hb). Qed.

Lemma clone_ranges_spec h (self_idb : gmap string nat) :
  (∀ k a, self_idb !! k = Some a → (a < length h)%nat) →
  built h (clone_ranges h self_idb).1 (clone_ranges h self_idb).2
  ∧ covered h (clone_ranges h self_idb).1 (clone_ranges h self_idb).2 self_idb.
Proof.
  unfold clone_ranges.
  apply (map_fold_weak_ind (λ r m,
    (∀ k a, m !! k = Some a → (a < length h)%nat) →
    built h r.1 r.2 ∧ covered h r.1 r.2 m)).
  - intros _. split; [split; simpl; [done|done|]|]; intros k a; by rewrite lookup_empty.
  - intros k a m [h' d] Hk IH Hvalid.
    destruct IH as [Hb Hc].
    { intros k' a' Hk'. apply (Hvalid k' a'). rewrite lookup_insert_ne; [done|]. congruence. }
    assert (Ha : (a < length h)%nat) by (apply (Hvalid k a); by rewrite lookup_insert_eq).
    simpl in *. destruct Hb as [Hfr Hlen Hfresh]. split; [split|]; simpl.
    + intros a' Ha'. rewrite lookup_app_l by lia. auto.
    + rewrite length_app. simpl. lia.
    + intros k' a'. rewrite length_app. simpl.
      destruct (decide (k = k')) as [->|].
      * rewrite lookup_insert_eq. intros [= <-]. lia.
      * rewrite lookup_insert_ne by done. intros Hd. apply Hfresh in Hd. lia.
    + intros k' a'. destruct (decide (k = k')) as [->|].
      * rewrite !lookup_insert_eq. intros [= <-]. eexists; split; [done|].
        unfold deref at 1. rewrite lookup_app_r by lia. rewrite Nat.sub_diag. simpl.
        assert (Heq : deref h' a = deref h a).
        { unfold deref. by rewrite Hfr. }
        rewrite Heq. destruct (deref h a) as [[] []]. simpl. reflexivity.
      * rewrite !lookup_insert_ne by done. intros Hm.
        destruct (Hc _ _ Hm) as (a'' & Hd & Hcov).
        exists a''. split; [done|]. apply Hfresh in Hd as Hr.
        rewrite deref_app_l by lia. done.
Qed.

Lemma built_alloc h h' d k r :
  built h h' d → built h (h' ++ [r]) (<[k := length h']> d).
Proof.
  intros [Hfr Hlen Hfresh]. split.
  - intros a Ha. rewrite lookup_app_l by lia. auto.
  - rewrite length_app. simpl. lia.
  - intros k' a. rewrite length_app. simpl.
    destruct (decide (k = k')) as [->|].
    + rewrite lookup_insert_eq. intros [= <-]. lia.
    + rewrite lookup_insert_ne by done. intros Hd. apply Hfresh in Hd. lia.
Qed.

Lemma covered_alloc h h' d src k r :
  built h h' d → d !! k = None → covered h h' d src →
  covered h (h' ++ [r]) (<[k := length h']> d) src.
Proof.
  intros Hb Hk Hc k' a Hsrc. destruct (Hc _ _ Hsrc) as (a' & Hd & Hcov).
  exists a'. split.
  - rewrite lookup_insert_ne; [done|]. congruence.
  - apply (built_fresh _ _ _ Hb) in Hd. by rewrite deref_app_l by lia.
Qed.

Lemma built_expand h h' d t r :
  built h h' d → (length h ≤ t)%nat → built h (<[t := r]> h') d.
Proof.
  intros [Hfr Hlen Hfresh] Ht. split.
  - intros a Ha. rewrite list_lookup_insert_ne by lia. auto.
  - by rewrite length_insert.
  - intros k a Hd. rewrite length_insert. eauto.
Qed.

Lemma deref_insert (h' : Heap) t r a :
  (t < length h')%nat →
  deref (<[t := r]> h') a = if decide (t = a) then r else deref h' a.
Proof.
  intros Ht. unfold deref. destruct (decide (t = a)) as [->|].
  - by rewrite list_lookup_insert_eq.
  - by rewrite list_lookup_insert_ne.
Qed.

Lemma covered_expand h h' d src t o :
  (t < length h')%nat → covered h h' d src →
  covered h (<[t := expand (deref h' t) o]> h') d src.
Proof.
  intros Ht Hc k a Hsrc. destruct (Hc _ _ Hsrc) as (a' & Hd & Hcov).
  exists a'. split; [done|]. rewrite deref_insert by done.
  case_decide; [subst|done]. etrans; [apply expand_covers_self|done].
Qed.

Lemma expand_ranges_spec h st (self_idb other_idb : gmap string nat) :
  built h st.1 st.2 → covered h st.1 st.2 self_idb →
  (∀ k a, other_idb !! k = Some a → (a < length h)%nat) →
  built h (expand_ranges st other_idb).1 (expand_ranges st other_idb).2
  ∧ covered h (expand_ranges st other_idb).1 (expand_ranges st other_idb).2
      self_idb
  ∧ covered h (expand_ranges st other_idb).1 (expand_ranges st other_idb).2
      other_idb.
Proof.
  intros Hb0 Hc0. unfold expand_ranges.
  apply (map_fold_weak_ind (λ r m,
    (∀ k a, m !! k = Some a → (a < length h)%nat) →
    built h r.1 r.2 ∧ covered h r.1 r.2 self_idb ∧ covered h r.1 r.2 m)).
  - intros _. split; [done|]. split; [done|].
    intros k a. by rewrite lookup_empty.
  - intros k a m [h' d] Hk IH Hvalid.
    destruct IH as (Hb & Hcs & Hcm).
    { intros k' a' Hk'. apply (Hvalid k' a').
      rewrite lookup_insert_ne; [done|]. congruence. }
    assert (Ha : (a < length h)%nat)
      by (apply (Hvalid k a); by rewrite lookup_insert_eq).
    simpl in Hb, Hcs, Hcm.
    assert (Hgoal : ∀ h1 d1 t, built h h1 d1 → covered h h1 d1 self_idb →
              covered h h1 d1 m → d1 !! k = Some t →
              let h2 := <[t := expand (deref h1 t) (deref h1 a)]> h1 in
              built h h2 d1 ∧ covered h h2 d1 self_idb
              ∧ covered h h2 d1 (<[k := a]> m)).
    { intros h1 d1 t Hb1 Hcs1 Hcm1 Hd1 h2.
      pose proof (built_fresh _ _ _ Hb1 _ _ Hd1) as Ht.
      split; [apply built_expand; [done|lia]|].
      split; [apply covered_expand; [lia|done]|].
      intros k' a'. destruct (decide (k = k')) as [->|].
      - rewrite lookup_insert_eq. intros [= <-]. exists t. split; [done|].
        unfold h2. rewrite deref_insert by lia. rewrite decide_True by done.
        rewrite (built_deref _ _ _ _ Hb1 Ha). apply expand_covers_other.
      - rewrite lookup_insert_ne by done. intros Hm.
        by apply (covered_expand h h1 d1 m t); [lia| |]. }
    destruct (d !! k) as [t|] eqn:Hdk; simpl.
    + by apply Hgoal.
    + apply Hgoal.
      * by apply built_alloc.
      * by apply covered_alloc.
      * by apply covered_alloc.
      * by rewrite lookup_insert_eq.
Qed.

Lemma merge_idb_versions_spec h (self_idb other_idb : gmap string nat) :
  (∀ k a, self_idb !! k = Some a → (a < length h)%nat) →
  (∀ k a, other_idb !! k = Some a → (a < length h)%nat) →
  let r := merge_idb_versions h self_idb other_idb in
  built h r.1 r.2 ∧ covered h r.1 r.2 self_idb ∧ covered h r.1 r.2 other_idb.
Proof.
  intros Hs Ho. destruct (clone_ranges_spec h self_idb Hs) as [Hb Hc].
  by apply expand_ranges_spec.
Qed.
End Idb.

(** ** Sorting and [unique] *)

Section TableOpsFacts.
Context {A : Type} (key : A → Z).

Lemma insert_sorted_perm x l : insert_sorted key x l ≡ₚ x :: l.
Proof.
  induction l as [|y l IH]; simpl; [done|].
  destruct (key x <=? key y); [done|].
  rewrite IH. apply Permutation_swap.
Qed.

Lemma table_sort_cons x l :
  table_sort key (x :: l) = insert_sorted key x (table_sort key l).
Proof. done. Qed.

Lemma table_sort_perm l : table_sort key l ≡ₚ l.
Proof.
  induction l as [|x l IH]; [done|].
  by rewrite table_sort_cons, insert_sorted_perm, IH.
Qed.

Lemma insert_sorted_sorted x l :
  StronglySorted (key_le key) l → StronglySorted (key_le key) (insert_sorted key x l).
Proof.
  induction 1 as [|y l Hl IH Hy]; simpl.
  - repeat constructor.
  - destruct (Z.leb_spec (key x) (key y)).
    + constructor; [by constructor|].
      constructor; [done|].
      eapply Forall_impl; [exact Hy|]. unfold key_le. intros; simpl in *; lia.
    + constructor; [done|].
      rewrite insert_sorted_perm. constructor; [|done]. unfold key_le. lia.
Qed.

Lemma table_sort_sorted l : StronglySorted (key_le key) (table_sort key l).
Proof.
  induction l as [|x l IH]; [constructor|].
  rewrite table_sort_cons. by apply insert_sorted_sorted.
Qed.

Lemma insert_sorted_filter k x l :
  StronglySorted (key_le key) l →
  filter (λ y, key y = k) (insert_sorted key x l)
  = filter (λ y, key y = k) (x :: l).
Proof.
  induction 1 as [|y l Hl IH Hy]; simpl; [done|].
  destruct (Z.leb_spec (key x) (key y)); [done|].
  rewrite !filter_cons in *. rewrite IH.
  destruct (decide (key y = k)), (decide (key x = k)); try done. lia.
Qed.

(** The sort is stable: rows of equal key keep their order. *)
Lemma table_sort_stable k l :
  filter (λ y, key y = k) (table_sort key l) = filter (λ y, key y = k) l.
Proof.
  induction l as [|x l IH]; [done|].
  rewrite table_sort_cons, insert_sorted_filter by apply table_sort_sorted.
  rewrite !filter_cons. by rewrite IH.
Qed.

Lemma table_sort_id l : StronglySorted (key_le key) l → table_sort key l = l.
Proof.
  induction 1 as [|x l Hl IH Hx]; [done|].
  rewrite table_sort_cons, IH.
  destruct l as [|y l]; simpl; [done|].
  apply Forall_cons in Hx as [Hxy _]. unfold key_le in Hxy.
  destruct (Z.leb_spec (key x) (key y)); [done|lia].
Qed.

Lemma first_of_cons x l r :
  first_of key (x :: l) r ↔ (key x = key r ∧ x = r) ∨ (key x ≠ key r ∧ first_of key l r).
Proof.
  unfold first_of. rewrite filter_cons.
  destruct (decide (key x = key r)); simpl; naive_solver.
Qed.

Lemma first_of_elem_of l r : first_of key l r → r ∈ l.
Proof.
  unfold first_of. intros Hh. apply head_Some_elem_of in Hh.
  by apply list_elem_of_filter in Hh as [_ ?].
Qed.

Lemma group_heads_Some p l r :
  StronglySorted (key_le key) l → Forall (λ x, p ≤ key x) l →
  r ∈ group_heads key (Some p) l ↔ key r ≠ p ∧ first_of key l r.
Proof.
  intros Hs. revert p. induction Hs as [|x l Hl IH Hx]; intros p Hp; simpl.
  - unfold first_of. simpl. rewrite elem_of_nil. naive_solver.
  - apply Forall_cons in Hp as [Hpx Hp].
    assert (Hxl : Forall (λ y, key x ≤ key y) l) by done.
    rewrite first_of_cons. case_bool_decide as Hd.
    + simplify_eq. rewrite IH by done. naive_solver.
    + rewrite elem_of_cons, IH by done.
      assert (p ≠ key x) by congruence.
      split.
      * intros [->|[Hne Hf]]; [naive_solver|].
        split; [|naive_solver].
        apply first_of_elem_of in Hf.
        rewrite Forall_forall in Hxl. specialize (Hxl _ Hf). lia.
      * intros [Hne [[? ->]|[? ?]]]; [by left|by right].
Qed.

Lemma group_heads_None l r :
  StronglySorted (key_le key) l → r ∈ group_heads key None l ↔ first_of key l r.
Proof.
  intros Hs. destruct Hs as [|x l Hl Hx]; simpl.
  - unfold first_of. simpl. rewrite elem_of_nil. naive_solver.
  - rewrite first_of_cons, elem_of_cons.
    rewrite group_heads_Some; [|done|].
    + naive_solver.
    + eapply Forall_impl; [exact Hx|]. done.
Qed.

(** A row is kept by [unique] exactly when it is the first of its key. *)
Lemma elem_of_unique l r : r ∈ unique key l ↔ first_of key l r.
Proof.
  unfold unique. rewrite group_heads_None by apply table_sort_sorted.
  unfold first_of. by rewrite table_sort_stable.
Qed.

Lemma group_heads_Some_sorted p l :
  StronglySorted (key_le key) l → Forall (λ x, p ≤ key x) l →
  StronglySorted (key_lt key) (group_heads key (Some p) l)
  ∧ Forall (λ x, p < key x) (group_heads key (Some p) l).
Proof.
  intros Hs. revert p. induction Hs as [|x l Hl IH Hx]; intros p Hp; simpl.
  - split; constructor.
  - apply Forall_cons in Hp as [Hpx Hp].
    case_bool_decide as Hd.
    + by apply IH.
    + assert (p ≠ key x) by congruence.
      destruct (IH (key x)) as [IH1 IH2]; [done|].
      split.
      * constructor; [done|]. done.
      * constructor; [lia|].
        eapply Forall_impl; [exact IH2|]. simpl. intros. lia.
Qed.

Lemma unique_sorted l : StronglySorted (key_lt key) (unique key l).
Proof.
  unfold unique. pose proof (table_sort_sorted l) as Hs.
  destruct Hs as [|x s Hs Hx]; simpl; [constructor|].
  destruct (group_heads_Some_sorted (key x) s) as [H1 H2]; [done|done|].
  by constructor.
Qed.

Lemma key_lt_le l : StronglySorted (key_lt key) l → StronglySorted (key_le key) l.
Proof.
  induction 1; constructor; [done|].
  eapply Forall_impl; [done|]. unfold key_lt, key_le. intros; simpl in *; lia.
Qed.

Lemma group_heads_Some_id p l :
  StronglySorted (key_lt key) l → Forall (λ x, p < key x) l →
  group_heads key (Some p) l = l.
Proof.
  intros Hs. revert p. induction Hs as [|x l Hl IH Hx]; intros p Hp; simpl.
  - done.
  - apply Forall_cons in Hp as [Hpx Hp].
    rewrite bool_decide_false by (intros [= ->]; lia).
    f_equal. by apply IH.
Qed.

Lemma unique_id l : StronglySorted (key_lt key) l → unique key l = l.
Proof.
  intros Hs. unfold unique. rewrite table_sort_id by by apply key_lt_le.
  destruct Hs as [|x l Hl Hx]; simpl; [done|].
  f_equal. by apply group_heads_Some_id.
Qed.

Lemma elem_of_unique_elem_of l r : r ∈ unique key l → r ∈ l.
Proof. rewrite elem_of_unique. apply first_of_elem_of. Qed.

Lemma unique_nil_inv l : unique key l = [] → l = [].
Proof.
  unfold unique. intros Hu.
  destruct (table_sort key l) as [|x s] eqn:E.
  - symmetry. apply Permutation_nil_l. by rewrite <- (table_sort_perm l), E.
  - done.
Qed.

(** Every key of [l] keeps one row. *)
Lemma unique_keys l x :
  x ∈ l → ∃ r, r ∈ unique key l ∧ key r = key x.
Proof.
  intros Hx.
  destruct (head (filter (λ y, key y = key x) l)) as [r|] eqn:E.
  - exists r. pose proof (head_Some_elem_of _ _ E) as Hr.
    apply list_elem_of_filter in Hr as [Hk _].
    split; [|done]. apply elem_of_unique. unfold first_of. by rewrite Hk.
  - apply head_None in E.
    assert (x ∈ filter (λ y, key y = key x) l)
      by by apply list_elem_of_filter.
    rewrite E in *. by apply elem_of_nil in H.
Qed.
End TableOpsFacts.

(** ** Merge: outcome of the checks *)

Section CombineFacts.
Context `{Collaborators}.

Lemma scet_timerange_empty : scet_timerange [] = Raise IndexError.
Proof. done. Qed.

Lemma scet_timerange_Ok (d : Data) :
  d ≠ [] → ∃ r, scet_timerange d = Ok r.
Proof.
  intros Hd. unfold scet_timerange.
  destruct d as [|x d]; [done|]. simpl.
  destruct (last (x :: d)) eqn:E; [eauto|].
  by apply last_None in E.
Qed.

Lemma scet_timerange_Raise (d : Data) e :
  scet_timerange d = Raise e → e = IndexError.
Proof.
  unfold scet_timerange. destruct (head d), (last d); congruence.
Qed.

Lemma new_product_constructed {C D} (p : Product_ C D) (c : C) (d : D) idb lv :
  constructed p →
  ∃ out, new_product (cls p) (service_type p) (service_subtype p) (ssid p)
           c d idb (Some lv) = Ok out
    ∧ cls out = cls p ∧ level out = lv ∧ control out = c ∧ data out = d
    ∧ idb_versions out = idb ∧ service_type out = service_type p
    ∧ service_subtype out = service_subtype p ∧ ssid out = ssid p
    ∧ constructed out.
Proof.
  unfold constructed, new_product. destruct (cls p) eqn:E.
  - intros _. eexists. split; [done|]. simpl. done.
  - intros Hc. rewrite Hc. simpl. eexists. split; [done|]. simpl. done.
Qed.

Lemma combine_Ok h (A B : Product) :
  isinstance B (cls A) = true → data A ≠ [] → data B ≠ [] →
  constructed A →
  ∃ ra rb R,
    scet_timerange (data A) = Ok ra ∧ scet_timerange (data B) = Ok rb
    ∧ combine h A B
      = Ok ((merge_idb_versions h (idb_versions A) (idb_versions B)).1, R)
    ∧ cls R = cls A ∧ level R = level A
    ∧ (control R, data R) = combine_tables (start ra) (start rb) A B
    ∧ idb_versions R
      = (merge_idb_versions h (idb_versions A) (idb_versions B)).2
    ∧ constructed R.
Proof.
  intros Hi HA HB HcA.
  destruct (scet_timerange_Ok _ HA) as [ra Hra].
  destruct (scet_timerange_Ok _ HB) as [rb Hrb].
  exists ra, rb. unfold combine. rewrite Hi, Hra, Hrb. simpl.
  destruct (combine_tables (start ra) (start rb) A B) as [c d] eqn:Et.
  destruct (merge_idb_versions h (idb_versions A) (idb_versions B))
    as [h' idb] eqn:Em.
  destruct (new_product_constructed A c d idb (level A) HcA)
    as (out & -> & ? & ? & ? & ? & ? & ? & ? & ? & ?).
  exists out. simpl. split_and!; try done. congruence.
Qed.


Lemma combine_index_error h (A B : Product) :
  isinstance B (cls A) = true → data A = [] ∨ data B = [] →
  combine h A B = Raise IndexError.
Proof.
  intros Hi Hd. unfold combine. rewrite Hi. simpl.
  destruct Hd as [-> | ->].
  - done.
  - destruct (scet_timerange (data A)) eqn:E; simpl; [done|].
    by rewrite (scet_timerange_Raise _ _ E).
Qed.



End CombineFacts.

(** ** Merge: the tables *)

Lemma ids_dense_empty : ids_dense ∅.
Proof. unfold ids_dense. by rewrite map_to_list_empty, map_size_empty. Qed.

Lemma ids_dense_insert m k :
  m !! k = None → ids_dense m → ids_dense (<[k := Z.of_nat (size m)]> m).
Proof.
  unfold ids_dense. intros Hk Hm.
  rewrite map_to_list_insert, map_size_insert_None by done.
  rewrite fmap_cons, Hm. simpl. rewrite seqZ_S.
  rewrite Z.add_0_l. by rewrite Permutation_cons_append.
Qed.

Lemma ids_dense_range m k v :
  ids_dense m → m !! k = Some v → 0 ≤ v < Z.of_nat (size m).
Proof.
  intros Hm Hk. assert (Hv : v ∈ (map_to_list m).*2).
  { apply list_elem_of_fmap. exists (k, v). split; [done|].
    by apply elem_of_map_to_list. }
  unfold ids_dense in Hm. rewrite Hm in Hv. apply elem_of_seqZ in Hv. lia.
Qed.

Lemma assign_newids_spec rows : ∀ m,
  ids_dense m →
  let final := (assign_newids m rows).1 in
  m ⊆ final ∧ ids_dense final
  ∧ dom final = dom m ∪ list_to_set rows.*1
  ∧ (assign_newids m rows).2 = renumber final <$> rows.
Proof.
  induction rows as [|[oid row] rest IH]; intros m Hm; simpl.
  - split; [done|]. split; [done|]. split; [set_solver|done].
  - set (m' := match m !! oid with
               | Some _ => m
               | None => <[oid:=Z.of_nat (size m)]> m
               end).
    assert (Hsub : m ⊆ m').
    { unfold m'. destruct (m !! oid) eqn:E; [done|]. by apply insert_subseteq. }
    assert (Hd : ids_dense m').
    { unfold m'. destruct (m !! oid) eqn:E; [done|]. by apply ids_dense_insert. }
    assert (Hdom : dom m' = dom m ∪ {[oid]}).
    { unfold m'. destruct (m !! oid) eqn:E.
      - apply elem_of_dom_2 in E. set_solver.
      - rewrite dom_insert_L. set_solver. }
    assert (Hin : is_Some (m' !! oid)).
    { apply elem_of_dom. rewrite Hdom. set_solver. }
    destruct (IH m' Hd) as (Hsub' & Hd' & Hdom' & Hrows).
    destruct (assign_newids m' rest) as [final rest'] eqn:E. simpl in *.
    split; [by etrans|]. split; [done|].
    split; [rewrite Hdom', Hdom; set_solver|].
    rewrite Hrows. f_equal. unfold renumber. simpl.
    destruct Hin as [v Hv]. rewrite Hv.
    by rewrite (lookup_weaken _ _ _ _ Hv Hsub').
Qed.





Global Instance old_index_tag_inj p : Inj (=) (=) (old_index_tag p).
Proof.
  intros i j Hij. unfold old_index_tag in Hij.
  apply (inj (String.app p)) in Hij. by apply (inj pretty) in Hij.
Qed.

Lemma old_index_tag_s_o i j : old_index_tag "s" i ≠ old_index_tag "o" j.
Proof.
  unfold old_index_tag. cbn [String.append]. by intros [=].
Qed.

Section CombineTables.
Context `{Collaborators}.

Lemma merged_rows_sorted sa sb A B :
  StronglySorted (key_lt data_key) (merged_rows sa sb A B).
Proof. apply unique_sorted. Qed.

Lemma combine_tables_data sa sb A B :
  ∃ final,
    ids_dense final
    ∧ dom final = list_to_set (merged_rows sa sb A B).*1
    ∧ (combine_tables sa sb A B).2
      = (renumber final <$> merged_rows sa sb A B).*2
    ∧ (combine_tables sa sb A B).1
      = (table_sort (λ c, index c.2)
           (reindex_control final
              (tagged_control "s" (control A)
               ++ tagged_control "o" (control B)))).*2.
Proof.
  unfold combine_tables. fold (merged_rows sa sb A B).
  rewrite (table_sort_id data_key)
    by apply key_lt_le, merged_rows_sorted.
  destruct (assign_newids_spec (merged_rows sa sb A B) ∅ ids_dense_empty)
    as (_ & Hd & Hdom & Hrows).
  destruct (assign_newids ∅ (merged_rows sa sb A B)) as [final rows].
  simpl in *. exists final. rewrite Hrows.
  split; [done|]. split; [set_solver|]. done.
Qed.
End CombineTables.

Lemma StronglySorted_lt_NoDup (l : list Z) : StronglySorted Z.lt l → NoDup l.
Proof.
  induction 1 as [|x l Hl IH Hx]; constructor; [|done].
  intros Hin. rewrite Forall_forall in Hx. specialize (Hx _ Hin). lia.
Qed.

Section CombineInvariants.
Context `{Collaborators}.


Lemma merged_rows_source sa sb (A B : Product) p :
  p ∈ merged_rows sa sb A B →
  (∃ r, r ∈ data A ∧ p = (old_index_tag "s" (control_index r), r))
  ∨ (∃ r, r ∈ data B ∧ p = (old_index_tag "o" (control_index r), r)).
Proof.
  intros Hp%elem_of_unique_elem_of. unfold stack_data, tagged_data in Hp.
  destruct (scet_leb sa sb);
    apply elem_of_app in Hp as [Hp|Hp];
    apply list_elem_of_fmap in Hp as (r & -> & Hr); eauto.
Qed.



Variable out_of_range : Z → Z → option Z.

Lemma vstack_control_Ok (A B : Product) :
  (control A = [] ↔ control B = []) →
  vstack_control (tagged_control "s" (control A))
    (tagged_control "o" (control B))
  = Ok (tagged_control "s" (control A) ++ tagged_control "o" (control B)).
Proof.
  intros Hab. unfold tagged_control.
  destruct (control A) as [|a ca], (control B) as [|b cb]; simpl; try done.
  - destruct Hab as [Hab _]. by specialize (Hab eq_refl).
  - destruct Hab as [_ Hab]. by specialize (Hab eq_refl).
Qed.

Lemma vstack_control_Raise (A B : Product) :
  ¬ (control A = [] ↔ control B = []) →
  vstack_control (tagged_control "s" (control A))
    (tagged_control "o" (control B))
  = Raise TableMergeError.
Proof.
  intros Hab. unfold tagged_control.
  destruct (control A) as [|a ca], (control B) as [|b cb]; simpl; try done;
    destruct Hab; done.
Qed.

Lemma setitem_uint_fits bits v :
  0 ≤ v < 2 ^ bits → setitem_uint out_of_range bits v = Ok v.
Proof. intros Hv. unfold setitem_uint. by rewrite bool_decide_true. Qed.

Lemma setitem_uint_Raise bits v e :
  setitem_uint out_of_range bits v = Raise e → e = OverflowError.
Proof.
  unfold setitem_uint. case_bool_decide; [done|].
  destruct (out_of_range bits v); congruence.
Qed.

Lemma assign_newids_uint_fits bits rows : ∀ m,
  ids_dense m →
  Z.of_nat (size (assign_newids m rows).1) ≤ 2 ^ bits →
  assign_newids_uint out_of_range bits m rows = Ok (assign_newids m rows).
Proof.
  induction rows as [|[oid row] rest IH]; intros m Hm Hsize; [done|].
  simpl in *.
  set (m' := match m !! oid with
             | Some _ => m
             | None => <[oid:=Z.of_nat (size m)]> m
             end) in *.
  assert (Hd : ids_dense m').
  { unfold m'. destruct (m !! oid) eqn:E; [done|]. by apply ids_dense_insert. }
  assert (Hin : is_Some (m' !! oid)).
  { unfold m'. destruct (m !! oid) eqn:E; [by rewrite E|].
    by rewrite lookup_insert_eq. }
  destruct (assign_newids_spec rest m' Hd) as (Hsub & _).
  destruct (assign_newids m' rest) as [final rest'] eqn:E. simpl in *.
  destruct Hin as [v Hv]. rewrite Hv. simpl.
  pose proof (ids_dense_range _ _ _ Hd Hv).
  pose proof (map_subseteq_size _ _ Hsub).
  rewrite setitem_uint_fits by lia. simpl.
  rewrite IH by (rewrite ?E; done). by rewrite E.
Qed.

Lemma assign_newids_uint_Raise bits rows : ∀ m e,
  assign_newids_uint out_of_range bits m rows = Raise e → e = OverflowError.
Proof.
  induction rows as [|[oid row] rest IH]; intros m e; [done|]. simpl.
  destruct (setitem_uint _ _ _) eqn:Es; simpl;
    [|intros [= <-]; by eapply setitem_uint_Raise].
  destruct (assign_newids_uint _ _ _ rest) as [[??]|] eqn:Er; simpl; [done|].
  intros [= <-]. by eapply IH.
Qed.

Lemma reindex_control_uint_fits bits m ctl :
  ids_dense m → Z.of_nat (size m) ≤ 2 ^ bits →
  reindex_control_uint out_of_range bits m ctl = Ok (reindex_control m ctl).
Proof.
  intros Hm Hsize. unfold reindex_control.
  induction ctl as [|[oid row] rest IH]; [done|]. csimpl.
  destruct (m !! oid) as [v|] eqn:Hv; [|done].
  pose proof (ids_dense_range _ _ _ Hm Hv).
  rewrite setitem_uint_fits by lia. simpl. by rewrite IH.
Qed.

Lemma reindex_control_uint_Raise bits m ctl e :
  reindex_control_uint out_of_range bits m ctl = Raise e → e = OverflowError.
Proof.
  induction ctl as [|[oid row] rest IH]; [done|]. simpl.
  destruct (m !! oid) as [v|]; [|done].
  destruct (setitem_uint _ _ _) eqn:Es; simpl;
    [|intros [= <-]; by eapply setitem_uint_Raise].
  destruct (reindex_control_uint _ _ _ rest) eqn:Er; simpl; [done|].
  intros [= <-]. by apply IH.
Qed.

Lemma size_set_map_inj (f : Z → string) `{!Inj (=) (=) f} (X : gset Z) :
  size (set_map f X : gset string) = size X.
Proof.
  unfold set_map. rewrite size_list_to_set; [by rewrite length_fmap|].
  apply (NoDup_fmap_2 _), NoDup_elements.
Qed.

Lemma merged_rows_size sa sb (A B : Product) (final : gmap string Z) :
  dom final = list_to_set (merged_rows sa sb A B).*1 →
  (size final ≤ size (referenced (data A)) + size (referenced (data B)))%nat.
Proof.
  intros Hdom. rewrite <-size_dom, Hdom.
  set (SA := set_map (old_index_tag "s") (referenced (data A)) : gset string).
  set (SB := set_map (old_index_tag "o") (referenced (data B)) : gset string).
  assert (Hsub : list_to_set (merged_rows sa sb A B).*1 ⊆ SA ∪ SB).
  { intros t [p [-> Hp]]%elem_of_list_to_set%list_elem_of_fmap.
    unfold SA, SB, referenced.
    destruct (merged_rows_source _ _ _ _ _ Hp) as [(r & Hr & ->)|(r & Hr & ->)];
      simpl; [apply elem_of_union_l|apply elem_of_union_r];
      apply elem_of_map; exists (control_index r); (split; [done|]);
      by apply elem_of_list_to_set, list_elem_of_fmap_2. }
  apply subseteq_size in Hsub. rewrite size_union_alt in Hsub.
  assert (Hdiff : (size (SB ∖ SA) ≤ size SB)%nat)
    by apply subseteq_size, subseteq_difference_l, reflexivity.
  unfold SA, SB in *.
  rewrite (size_set_map_inj (old_index_tag "s")) in Hsub.
  rewrite (size_set_map_inj (old_index_tag "o")) in Hdiff. lia.
Qed.

(** Where the control tables stack and the columns hold every new id,
    [__add__] is [combine]. *)
Lemma add_combine ib cb h (A B : Product) :
  (control A = [] ↔ control B = []) →
  packets_fit ib A B → packets_fit cb A B →
  __add__ out_of_range ib cb h A B = combine h A B.
Proof.
  intros Hab Hib Hcb. unfold __add__, combine.
  destruct (isinstance B (cls A)); simpl; [|done].
  rewrite vstack_control_Ok by done. simpl.
  destruct (scet_timerange (data A)) as [ra|]; simpl; [|done].
  destruct (scet_timerange (data B)) as [rb|]; simpl; [|done].
  unfold combine_tables. fold (merged_rows (start ra) (start rb) A B).
  destruct (assign_newids_spec
              (table_sort data_key (merged_rows (start ra) (start rb) A B))
              ∅ ids_dense_empty) as (_ & Hd & Hdom & _).
  assert (Hsize : (size (assign_newids ∅
                    (table_sort data_key
                       (merged_rows (start ra) (start rb) A B))).1
                   ≤ size (referenced (data A)) + size (referenced (data B)))%nat).
  { apply (merged_rows_size (start ra) (start rb)). rewrite Hdom.
    rewrite (table_sort_id data_key)
      by apply key_lt_le, merged_rows_sorted. set_solver. }
  unfold packets_fit in *.
  rewrite assign_newids_uint_fits by (apply ids_dense_empty || lia).
  destruct (assign_newids ∅ _) as [final rows]. simpl in *.
  rewrite reindex_control_uint_fits by (done || lia). done.
Qed.

Lemma add_type_error ib cb h (A B : Product) :
  isinstance B (cls A) = false →
  __add__ out_of_range ib cb h A B
  = Raise (TypeError ("Products must of same type not "
                      +:+ class_repr (cls A) +:+ " and "
                      +:+ class_repr (cls B))).
Proof. intros Hi. unfold __add__. by rewrite Hi. Qed.

Lemma add_table_merge_error ib cb h (A B : Product) :
  isinstance B (cls A) = true → ¬ (control A = [] ↔ control B = []) →
  __add__ out_of_range ib cb h A B = Raise TableMergeError.
Proof.
  intros Hi Hab. unfold __add__. rewrite Hi. simpl.
  by rewrite vstack_control_Raise.
Qed.

Lemma add_index_error ib cb h (A B : Product) :
  isinstance B (cls A) = true → (control A = [] ↔ control B = []) →
  data A = [] ∨ data B = [] →
  __add__ out_of_range ib cb h A B = Raise IndexError.
Proof.
  intros Hi Hab Hd. unfold __add__. rewrite Hi. simpl.
  rewrite vstack_control_Ok by done. simpl.
  destruct Hd as [-> | ->].
  - done.
  - destruct (scet_timerange (data A)) eqn:E; simpl; [done|].
    by rewrite (scet_timerange_Raise _ _ E).
Qed.

(** Once the checks have passed, [__add__] returns, unless a new id does
    not fit its column and numpy raises. *)
Lemma add_past_checks ib cb h (A B : Product) :
  isinstance B (cls A) = true → (control A = [] ↔ control B = []) →
  data A ≠ [] → data B ≠ [] → constructed A →
  (∃ h' R, __add__ out_of_range ib cb h A B = Ok (h', R))
  ∨ __add__ out_of_range ib cb h A B = Raise OverflowError.
Proof.
  intros Hi Hab HA HB Hc. unfold __add__. rewrite Hi. simpl.
  rewrite vstack_control_Ok by done. simpl.
  destruct (scet_timerange_Ok _ HA) as [ra ->].
  destruct (scet_timerange_Ok _ HB) as [rb ->]. simpl.
  destruct (assign_newids_uint _ _ _ _) as [[newids rows]|e] eqn:Ea; simpl;
    [|right; by rewrite (assign_newids_uint_Raise _ _ _ _ Ea)].
  destruct (reindex_control_uint _ _ _ _) as [ctl|e] eqn:Er; simpl;
    [|right; by rewrite (reindex_control_uint_Raise _ _ _ _ Er)].
  destruct (merge_idb_versions h (idb_versions A) (idb_versions B))
    as [h' idb].
  destruct (new_product_constructed A
              (table_sort (λ c, index c.2) ctl).*2 rows.*2 idb (level A) Hc)
    as (out & -> & _).
  left. by exists h', out.
Qed.

Lemma add_Ok_inv ib cb h (A B : Product) out :
  __add__ out_of_range ib cb h A B = Ok out →
  (control A = [] ↔ control B = []).
Proof.
  unfold __add__. destruct (isinstance B (cls A)); simpl; [|done].
  destruct (decide (control A = [] ↔ control B = [])) as [|Hn]; [done|].
  by rewrite vstack_control_Raise.
Qed.





(** C10, as the code has it: on an empty data table [scet_timerange] fails
    with an index error, and so does [__add__] with such a product as
    either operand, once the instance check has passed and the control
    tables are stacked, which they are when both have rows or neither has;
    when both data tables are non-empty both time ranges are defined and
    [__add__] goes on to its tables: it returns, unless a new id does not
    fit its column and numpy raises, and it returns whenever the columns
    have a value for every packet that the data tables refer to. *)
Theorem empty_data_index_error ib cb h (P Q : Product) :
  (data P = [] →
     scet_timerange (data P) = Raise IndexError
     ∧ (isinstance Q (cls P) = true → (control P = [] ↔ control Q = []) →
          __add__ out_of_range ib cb h P Q = Raise IndexError)
     ∧ (isinstance P (cls Q) = true → (control P = [] ↔ control Q = []) →
          __add__ out_of_range ib cb h Q P = Raise IndexError))
  ∧ (data P ≠ [] → data Q ≠ [] →
       (∃ rp rq, scet_timerange (data P) = Ok rp
                 ∧ scet_timerange (data Q) = Ok rq)
       ∧ (isinstance Q (cls P) = true → constructed P →
          (control P = [] ↔ control Q = []) →
            ((∃ h' R, __add__ out_of_range ib cb h P Q = Ok (h', R))
             ∨ __add__ out_of_range ib cb h P Q = Raise OverflowError)
            ∧ (packets_fit ib P Q → packets_fit cb P Q →
               ∃ h' R, __add__ out_of_range ib cb h P Q = Ok (h', R)))).
Proof.
  split.
  - intros HP. split; [by rewrite HP|].
    split; intros Hi Hab; apply add_index_error; auto; tauto.
  - intros HP HQ. split.
    + destruct (scet_timerange_Ok _ HP) as [rp ?].
      destruct (scet_timerange_Ok _ HQ) as [rq ?]. eauto.
    + intros Hi Hc Hab. split; [by apply add_past_checks|].
      intros Hib Hcb. rewrite add_combine by done.
      destruct (combine_Ok h P Q Hi HP HQ Hc)
        as (ra & rb & R & _ & _ & Hcomb & _). eauto.
Qed.
End CombineInvariants.

(** ** Merge: content *)

Section UniqueFmap.
Context {A B : Type} (key : B → Z) (f : A → B).

Lemma insert_sorted_fmap x l :
  insert_sorted key (f x) (f <$> l) = f <$> insert_sorted (key ∘ f) x l.
Proof.
  induction l as [|y l IH]; [done|]. simpl.
  destruct (key (f x) <=? key (f y)); [done|]. csimpl. by rewrite IH.
Qed.

Lemma table_sort_fmap l :
  table_sort key (f <$> l) = f <$> table_sort (key ∘ f) l.
Proof.
  induction l as [|x l IH]; [done|].
  rewrite fmap_cons, !table_sort_cons, IH. apply insert_sorted_fmap.
Qed.

Lemma group_heads_fmap prev l :
  group_heads key prev (f <$> l) = f <$> group_heads (key ∘ f) prev l.
Proof.
  revert prev. induction l as [|x l IH]; intros prev; [done|]. simpl.
  case_bool_decide; csimpl; by rewrite IH.
Qed.

Lemma unique_fmap l : unique key (f <$> l) = f <$> unique (key ∘ f) l.
Proof. unfold unique. by rewrite table_sort_fmap, group_heads_fmap. Qed.
End UniqueFmap.

Section FirstOf.
Context {A : Type} (key : A → Z).

Lemma first_of_app_disjoint l1 l2 r :
  (∀ x y, x ∈ l1 → y ∈ l2 → key x ≠ key y) →
  first_of key (l1 ++ l2) r ↔ first_of key l1 r ∨ first_of key l2 r.
Proof.
  intros Hdis. unfold first_of. rewrite filter_app.
  destruct (filter (λ x, key x = key r) l1) as [|x l] eqn:E; simpl.
  - naive_solver.
  - split; [by left|]. intros [|Hr]; [done|].
    apply head_Some_elem_of, list_elem_of_filter in Hr as [_ Hr].
    assert (Hx : x ∈ filter (λ x, key x = key r) l1) by (rewrite E; left).
    apply list_elem_of_filter in Hx as [Hk Hx].
    by destruct (Hdis x r Hx Hr).
Qed.

End FirstOf.


Section MergeContent.
Context `{Collaborators}.







End MergeContent.

(** ** Split *)

Section Partition.
Context {A : Type} (day : A → Z).

Lemma StronglySorted_filter (R : relation A) (P : A → Prop)
    `{!∀ x, Decision (P x)} l :
  StronglySorted R l → StronglySorted R (filter P l).
Proof.
  induction 1 as [|x l Hl IH Hx]; [constructor|].
  rewrite filter_cons. case_decide; [|done].
  constructor; [done|]. rewrite Forall_forall in Hx |- *.
  intros y [_ Hy]%list_elem_of_filter. auto.
Qed.


End Partition.


Lemma StronglySorted_head_last {A} (R : relation A) l a z x :
  (∀ y, R y y) →
  StronglySorted R l → head l = Some a → last l = Some z → x ∈ l →
  R a x ∧ R x z.
Proof.
  intros Hrefl Hs Ha Hz Hx. split.
  - destruct l as [|a' l]; simplify_eq/=.
    apply StronglySorted_inv in Hs as [_ Hs].
    apply elem_of_cons in Hx as [->|Hx]; [done|].
    rewrite Forall_forall in Hs. auto.
  - apply last_Some in Hz as [l' ->].
    apply StronglySorted_app in Hs as (Hs & _ & _).
    apply elem_of_app in Hx as [Hx|Hx].
    + apply Hs; [done|]. left.
    + apply list_elem_of_singleton in Hx as ->. done.
Qed.

Lemma seqZ_sorted_lt m n : StronglySorted Z.lt (seqZ m n).
Proof.
  destruct (decide (n ≤ 0)) as [Hn|Hn]; [rewrite seqZ_nil by done; constructor|].
  rewrite <- (Z2Nat.id n) by lia. generalize (Z.to_nat n) as k. clear.
  intros k. revert m. induction k as [|k IH]; intros m.
  - rewrite seqZ_nil by done. constructor.
  - rewrite seqZ_cons by lia. constructor.
    + replace (Z.pred (Z.of_nat (S k))) with (Z.of_nat k) by lia. apply IH.
    + apply Forall_seqZ. lia.
Qed.

Section NpUnique.
Lemma np_unique_sorted a : StronglySorted Z.lt (np_unique a).
Proof. apply (unique_sorted id). Qed.

Lemma elem_of_np_unique a x : x ∈ np_unique a ↔ x ∈ a.
Proof.
  split.
  - apply elem_of_unique_elem_of.
  - intros Hx. destruct (unique_keys id a x Hx) as (r & Hr & Heq).
    unfold id in Heq. by subst.
Qed.

Lemma np_unique_nil_inv a : np_unique a = [] → a = [].
Proof. apply unique_nil_inv. Qed.

Lemma array_min_sorted x a :
  StronglySorted Z.lt (x :: a) → array_min (x :: a) = Ok x.
Proof.
  intros Hs. simpl. f_equal. apply StronglySorted_inv in Hs as [_ Hx].
  induction Hx as [|y a Hy Ha IH]; simpl; [done|]. lia.
Qed.
End NpUnique.

Section Fragment.
Context `{Collaborators}.

Lemma rows_of_spec (P : Product) d day r :
  r ∈ rows_of P d day ↔ r ∈ d ∧ day_of P r = day.
Proof.
  unfold rows_of, day_of, rows_of_sceday, rows_of_utc_day, seconds_per_day.
  case_bool_decide; rewrite list_elem_of_filter.
  - split; intros [? ?]; split; first [done|lia].
  - pose proof (Z.mod_pos_bound (to_time (time r)) 86400).
    pose proof (Z.div_mod (to_time (time r)) 86400).
    split; intros [? ?]; split; try done; [|nia].
    symmetry. apply Z.div_unique with (to_time (time r) - day * 86400); lia.
Qed.

Lemma bind_Ok {A B} (a : A) (k : A → Result B) : (Ok a ≫= k) = k a.
Proof. done. Qed.

Lemma set_fits_header_Some {C D} hd (p : Product_ C D) :
  ∃ p', set_fits_header (Some hd) p = Ok p'
        ∧ cls p' = cls p ∧ level p' = level p ∧ control p' = control p
        ∧ data p' = data p ∧ idb_versions p' = idb_versions p.
Proof.
  unfold set_fits_header. destruct p as [[] ? ? ? ? ? ? ? ? ? ?]; simpl;
    eexists; split_and!; done.
Qed.

Lemma fragment_Ok (P : Product) (sel : Data) :
  constructed P → sel ≠ [] →
  ∃ out m refs,
    fragment P sel = Ok out
    ∧ np_unique (control_index <$> sel) = m :: refs
    ∧ data out
      = (λ r, set_control_index (control_index r - m) r) <$> sel
    ∧ control out
      = (λ c, set_index (index c - m) c)
        <$> filter (λ c, index c ∈ m :: refs) (control P)
    ∧ cls out = cls P ∧ level out = level P
    ∧ idb_versions out = idb_versions P.
Proof.
  intros Hc Hsel. unfold fragment.
  destruct (np_unique (control_index <$> sel)) as [|m refs] eqn:E.
  { apply np_unique_nil_inv, fmap_nil_inv in E. done. }
  rewrite array_min_sorted by (rewrite <- E; apply np_unique_sorted).
  rewrite bind_Ok.
  edestruct (new_product_constructed P) as (out & -> & ? & ? & ? & ? & ? & _ & _ & _ & Hco);
    [done|]. rewrite bind_Ok.
  destruct (fits_header P) as [hd|].
  - destruct (set_fits_header_Some hd out)
      as (out' & Hset & ? & ? & ? & ? & ?).
    eexists out', m, refs. split_and!; try done; by etrans.
  - eexists out, m, refs. split_and!; done.
Qed.
End Fragment.

Section Generate.
Context {A D : Type} (body : D → option (Result A)).

Lemma generate_elem_of days f :
  f ∈ (generate body days).1 → ∃ d, d ∈ days ∧ body d = Some (Ok f).
Proof.
  induction days as [|d days IH]; simpl; [by intros ?%elem_of_nil|].
  destruct (body d) as [[out|e]|] eqn:E; simpl.
  - destruct (generate body days) as [outs e]. simpl in *.
    intros [->|Hf]%elem_of_cons.
    + exists d. split; [left|done].
    + destruct (IH Hf) as (d' & ? & ?). exists d'. split; [by right|done].
  - by intros ?%elem_of_nil.
  - intros Hf. destruct (IH Hf) as (d' & ? & ?).
    exists d'. split; [by right|done].
Qed.

Lemma generate_total days :
  (∀ d e, d ∈ days → body d ≠ Some (Raise e)) →
  generate body days = (omap (yield_of body) days, None).
Proof.
  induction days as [|d days IH]; intros Hok; [done|].
  simpl. unfold yield_of at 1.
  assert (Hd := Hok d). rewrite IH by (intros; apply Hok; by right).
  destruct (body d) as [[out|e]|]; simpl; [done| |done].
  by destruct (Hd e (list_elem_of_here _ _)).
Qed.
End Generate.

Section SplitFacts.
Context `{Collaborators}.

Lemma new_product_inv {C D} c st sst sid (ctl : C) (d : D) idb lv out :
  new_product c st sst sid ctl d idb lv = Ok out →
  control out = ctl ∧ data out = d.
Proof.
  unfold new_product. destruct c; simpl.
  - by intros [= <-].
  - destruct (service_name st); simpl; [|done]. by intros [= <-].
Qed.

Lemma set_fits_header_inv {C D} v (p p' : Product_ C D) :
  set_fits_header v p = Ok p' → control p' = control p ∧ data p' = data p.
Proof.
  unfold set_fits_header. destruct (cls p), v; simpl; try done;
    by intros [= <-].
Qed.

Lemma fragment_length (P : Product) sel out :
  fragment P sel = Ok out → length (data out) = length sel.
Proof.
  unfold fragment. destruct (array_min _) as [m|]; simpl; [|done].
  destruct (new_product _ _ _ _ _ _ _ _) as [p|] eqn:E; simpl; [|done].
  apply new_product_inv in E as [_ Hd].
  destruct (fits_header P).
  - intros [_ Hd']%set_fits_header_inv. by rewrite Hd', Hd, length_fmap.
  - intros [= <-]. by rewrite Hd, length_fmap.
Qed.

Lemma split_day_None (P : Product) rows day :
  split_day P rows day = None ↔ rows (data P) day = [].
Proof.
  unfold split_day. destruct (rows (data P) day); simpl; [done|].
  split; done.
Qed.

Lemma split_to_files_nonempty (P : Product) f :
  f ∈ (split_to_files P).1 → data f ≠ [].
Proof.
  assert (Hgen : ∀ rows days, f ∈ (generate (split_day P rows) days).1 →
            data f ≠ []).
  { intros rows days (d & _ & Hd)%generate_elem_of.
    unfold split_day in Hd.
    destruct (rows (data P) d) as [|x sel] eqn:E; simpl in Hd; [done|].
    injection Hd as Hd. apply fragment_length in Hd. intros Hnil.
    by rewrite Hnil in Hd. }
  unfold split_to_files. case_bool_decide; [apply Hgen|].
  destruct (scet_timerange (data P)); [apply Hgen|].
  by intros ?%elem_of_nil.
Qed.

Lemma yielded_None (P : Product) day :
  rows_of P (data P) day = [] → yielded P day = None.
Proof. intros Hr. unfold yielded. by rewrite (proj2 (split_day_None _ _ _) Hr). Qed.

Lemma yielded_Some (P : Product) day :
  constructed P → rows_of P (data P) day ≠ [] →
  ∃ out m refs,
    yielded P day = Some out
    ∧ split_day P (rows_of P) day = Some (Ok out)
    ∧ np_unique (control_index <$> rows_of P (data P) day) = m :: refs
    ∧ data out
      = (λ r, set_control_index (control_index r - m) r)
        <$> rows_of P (data P) day
    ∧ control out
      = (λ c, set_index (index c - m) c)
        <$> filter (λ c, index c ∈ m :: refs) (control P)
    ∧ cls out = cls P ∧ level out = level P
    ∧ idb_versions out = idb_versions P.
Proof.
  intros Hc Hr.
  destruct (fragment_Ok P _ Hc Hr) as (out & m & refs & Hf & Hrest).
  exists out, m, refs. unfold yielded, split_day.
  destruct (rows_of P (data P) day); [done|]. simpl. rewrite Hf. done.
Qed.

Lemma split_to_files_yielded (P : Product) :
  constructed P → level P = Some "L0" ∨ data P ≠ [] →
  split_to_files P = (omap (yielded P) (split_days P), None).
Proof.
  intros Hc Hl.
  assert (Hgen : ∀ days,
            generate (split_day P (rows_of P)) days
            = (omap (yielded P) days, None)).
  { intros days. apply generate_total. intros d e _.
    destruct (decide (rows_of P (data P) d = [])) as [Hr|Hr].
    - by rewrite (proj2 (split_day_None _ _ _) Hr).
    - destruct (yielded_Some P d Hc Hr) as (out & ? & ? & _ & -> & _). done. }
  unfold split_to_files, split_days. specialize (Hgen (split_days P)).
  unfold rows_of, split_days in Hgen. case_bool_decide; [done|].
  destruct Hl as [?|Hd]; [done|].
  destruct (scet_timerange_Ok _ Hd) as [rg Hrg]. rewrite Hrg in *. done.
Qed.
End SplitFacts.

Lemma sorted_lt_eq (l1 l2 : list Z) :
  StronglySorted Z.lt l1 → StronglySorted Z.lt l2 →
  (∀ x, x ∈ l1 ↔ x ∈ l2) → l1 = l2.
Proof.
  intros H1 H2 Hiff. apply (StronglySorted_unique_strong Z.lt); try done.
  - intros; lia.
  - apply NoDup_Permutation; [by apply StronglySorted_lt_NoDup..|done].
Qed.

Lemma filter_fmap {A B} (f : A → B) (P : B → Prop) `{!∀ x, Decision (P x)}
    `{!∀ x, Decision (P (f x))} (l : list A) :
  filter P (f <$> l) = f <$> filter (λ x, P (f x)) l.
Proof.
  induction l as [|x l IH]; [done|]. csimpl. rewrite !filter_cons.
  destruct (decide (P (f x))) as [?|?]; destruct (decide (P (f x))) as [?|?];
    csimpl; rewrite ?IH; done.
Qed.

Lemma convex_sorted_seqZ (l : list Z) :
  StronglySorted Z.lt l →
  (∀ i j k, i ∈ l → k ∈ l → i ≤ j ≤ k → j ∈ l) →
  l = seqZ (default 0 (head l)) (Z.of_nat (length l)).
Proof.
  induction 1 as [|x l Hl IH Hx]; intros Hconv; [done|]. simpl.
  rewrite seqZ_cons by lia. f_equal.
  replace (Z.pred (Z.of_nat (S (length l)))) with (Z.of_nat (length l)) by lia.
  destruct l as [|y l']; [done|].
  assert (Hy : y = Z.succ x).
  { apply Forall_cons in Hx as [Hxy _].
    assert (Hin : Z.succ x ∈ x :: y :: l').
    { apply (Hconv x _ y); [left|right; left|lia]. }
    apply elem_of_cons in Hin as [?|Hin]; [lia|].
    apply elem_of_cons in Hin as [?|Hin]; [done|].
    apply StronglySorted_inv in Hl as [_ Hl].
    rewrite Forall_forall in Hl. specialize (Hl _ Hin). lia. }
  rewrite IH at 1.
  - simpl. by rewrite Hy.
  - intros i j k Hi Hk Hjk.
    assert (Hj : j ∈ x :: y :: l') by (apply (Hconv i j k); [by right..|done]).
    apply elem_of_cons in Hj as [->|Hj]; [|done].
    rewrite Forall_forall in Hx. specialize (Hx _ Hi). lia.
Qed.

Section SplitTheorems.
Context `{Collaborators}.

Lemma split_to_files_elem_of (P : Product) f :
  f ∈ (split_to_files P).1 → ∃ day, yielded P day = Some f.
Proof.
  assert (Hgen : ∀ days, f ∈ (generate (split_day P (rows_of P)) days).1 →
            ∃ day, yielded P day = Some f).
  { intros days (d & _ & Hd)%generate_elem_of. exists d.
    unfold yielded. by rewrite Hd. }
  unfold split_to_files. pose proof Hgen as Hgen'. unfold rows_of in Hgen'.
  case_bool_decide; [apply Hgen'|].
  destruct (scet_timerange (data P)); [apply Hgen'|].
  by intros ?%elem_of_nil.
Qed.

Lemma yielded_is_Some (P : Product) day :
  constructed P →
  is_Some (yielded P day) ↔ ∃ r, r ∈ rows_of P (data P) day.
Proof.
  intros Hc. destruct (decide (rows_of P (data P) day = [])) as [Hr|Hr].
  - rewrite (yielded_None _ _ Hr), Hr. split; [by intros [? ?]|].
    by intros [r ?%elem_of_nil].
  - destruct (yielded_Some P day Hc Hr) as (out & ? & ? & -> & _).
    split; [|by eauto]. intros _.
    destruct (rows_of P (data P) day) as [|r ?]; [done|]. exists r. left.
Qed.

Lemma split_days_sorted (P : Product) : StronglySorted Z.lt (split_days P).
Proof.
  unfold split_days. case_bool_decide; [apply np_unique_sorted|].
  destruct (scet_timerange (data P)); [|constructor].
  apply seqZ_sorted_lt.
Qed.

Lemma split_to_files_omap (P : Product) :
  constructed P → (split_to_files P).1 = omap (yielded P) (split_days P).
Proof.
  intros Hc. destruct (decide (level P = Some "L0" ∨ data P ≠ [])) as [Hl|Hl].
  - by rewrite split_to_files_yielded.
  - assert (Hl' : level P ≠ Some "L0") by tauto.
    assert (Hd' : data P = []).
    { destruct (data P) eqn:E; [done|]. destruct Hl. by right. }
    unfold split_to_files, split_days. rewrite !bool_decide_false by done.
    rewrite Hd', scet_timerange_empty. done.
Qed.

Lemma yielded_inv (P : Product) day f :
  constructed P → yielded P day = Some f →
  rows_of P (data P) day ≠ []
  ∧ ∃ m refs,
      np_unique (control_index <$> rows_of P (data P) day) = m :: refs
      ∧ data f = (λ r, set_control_index (control_index r - m) r)
                 <$> rows_of P (data P) day
      ∧ control f = (λ c, set_index (index c - m) c)
                    <$> filter (λ c, index c ∈ m :: refs) (control P)
      ∧ cls f = cls P ∧ level f = level P
      ∧ idb_versions f = idb_versions P.
Proof.
  intros Hc Hy.
  assert (Hr : rows_of P (data P) day ≠ []).
  { intros Hr. by rewrite (yielded_None _ _ Hr) in Hy. }
  split; [done|].
  destruct (yielded_Some P day Hc Hr) as (out & m & refs & Hy' & _ & Hrest).
  rewrite Hy in Hy'. injection Hy' as <-. eauto.
Qed.

Lemma yielded_day_inj (P : Product) d d' f :
  constructed P → yielded P d = Some f → yielded P d' = Some f → d = d'.
Proof.
  intros Hc Hy Hy'.
  apply yielded_inv in Hy as (Hne & m & ? & _ & Hd & _); [|done].
  apply yielded_inv in Hy' as (_ & m' & ? & _ & Hd' & _); [|done].
  destruct (rows_of P (data P) d) as [|r0 rs] eqn:E; [done|].
  assert (Hr0 : r0 ∈ rows_of P (data P) d) by (rewrite E; left).
  assert (Hin : set_control_index (control_index r0 - m) r0 ∈ data f)
    by (rewrite Hd; left).
  rewrite Hd' in Hin. apply list_elem_of_fmap in Hin as (r1 & Heq & Hr1).
  apply rows_of_spec in Hr0 as [_ <-]. apply rows_of_spec in Hr1 as [_ <-].
  assert (Ht : time r0 = time r1) by by injection Heq.
  unfold day_of. by rewrite Ht.
Qed.

Lemma emitted_spec (P : Product) day :
  constructed P →
  emitted P day ↔ day ∈ split_days P ∧ ∃ r, r ∈ rows_of P (data P) day.
Proof.
  intros Hc. unfold emitted. rewrite split_to_files_omap by done. split.
  - intros (f & Hf & Hy). apply list_elem_of_omap in Hf as (d' & Hd' & Hy').
    assert (d' = day) as -> by by eapply yielded_day_inj.
    split; [done|]. apply yielded_is_Some; eauto.
  - intros [Hd Hr]. apply yielded_is_Some in Hr as [f Hf]; [|done].
    exists f. split; [|done]. apply list_elem_of_omap. eauto.
Qed.

Lemma days_covered_L0 (P : Product) : level P = Some "L0" → days_covered P.
Proof.
  intros HL0 r Hr. unfold split_days, day_of. rewrite !bool_decide_true by done.
  apply elem_of_np_unique.
  by apply (list_elem_of_fmap_2 (λ r, get_scedays (time r))).
Qed.

(** C7, as the code has it: no fragment is empty, and a fragment is
    yielded for a day exactly when the loop visits the day and a data row
    falls in its half-open interval.  For L0 the loop visits exactly the days
    that have a row; for the other levels it visits the dates of the time
    range, and the claim holds when these include the day of every row.  An
    L0 product with samples on days 100, 101 and 103 yields three fragments,
    none for day 102. *)
Theorem split_skips_empty_days (P : Product) :
  constructed P →
  (∀ f, f ∈ (split_to_files P).1 → data f ≠ [])
  ∧ (∀ day, emitted P day
            ↔ day ∈ split_days P ∧ ∃ r, r ∈ rows_of P (data P) day)
  ∧ (level P = Some "L0" ∨ days_covered P →
     ∀ day, emitted P day ↔ ∃ r, r ∈ rows_of P (data P) day)
  ∧ (level P = Some "L0" ∨ data P ≠ [] →
       split_to_files P = (omap (yielded P) (split_days P), None))
  ∧ (level P = Some "L0" →
     (∀ d, d ∈ [100; 101; 103]
           ↔ ∃ r, r ∈ data P ∧ get_scedays (time r) = d) →
     split_days P = [100; 101; 103]
     ∧ length (split_to_files P).1 = 3%nat
     ∧ yielded P 102 = None
     ∧ ¬ emitted P 102).
Proof.
  intros Hc. split; [apply split_to_files_nonempty|].
  split; [intros; by apply emitted_spec|].
  split.
  { intros Hcov day. rewrite emitted_spec by done.
    split; [by intros [_ ?]|]. intros (r & Hr). split; [|eauto].
    assert (Hcov' : days_covered P).
    { destruct Hcov as [?|?]; [by apply days_covered_L0|done]. }
    apply rows_of_spec in Hr as [Hr <-]. by apply Hcov'. }
  split; [by apply split_to_files_yielded|].
  intros HL0 Hdays.
  assert (Hsd : split_days P = [100; 101; 103]).
  { unfold split_days. rewrite bool_decide_true by done.
    apply sorted_lt_eq; [apply np_unique_sorted| |].
    - repeat constructor; lia.
    - intros d. rewrite elem_of_np_unique, Hdays, list_elem_of_fmap.
      naive_solver. }
  assert (Hrows : ∀ d r, r ∈ rows_of P (data P) d
                         ↔ r ∈ data P ∧ get_scedays (time r) = d).
  { intros d r. rewrite rows_of_spec. unfold day_of.
    by rewrite bool_decide_true by done. }
  split; [done|]. split.
  - rewrite split_to_files_yielded by auto. rewrite Hsd. simpl.
    assert (Hy : ∀ d, d ∈ [100; 101; 103] → is_Some (yielded P d)).
    { intros d Hd. apply yielded_is_Some; [done|].
      apply Hdays in Hd as (r & ? & ?). exists r. by apply Hrows. }
    destruct (Hy 100) as [? ->]; [set_solver|].
    destruct (Hy 101) as [? ->]; [set_solver|].
    destruct (Hy 103) as [? ->]; [set_solver|]. done.
  - split; [|rewrite emitted_spec, Hsd by done; intros [Hin _]; set_solver].
    apply yielded_None.
    destruct (rows_of P (data P) 102) as [|r rs] eqn:E; [done|].
    assert (Hr : r ∈ rows_of P (data P) 102) by (rewrite E; left).
    apply Hrows in Hr as [Hr Hd].
    assert (Hin : (102:Z) ∈ [100; 101; 103]) by (apply Hdays; eauto).
    set_solver.
Qed.

Lemma rows_of_filter (P : Product) d day :
  rows_of P d day = filter (λ r, day_of P r = day) d.
Proof.
  unfold rows_of, day_of, rows_of_sceday, rows_of_utc_day.
  pose proof (rows_of_spec P d day) as Hs.
  unfold rows_of, day_of, rows_of_sceday, rows_of_utc_day in Hs.
  case_bool_decide; apply list_filter_iff; intros r.
  - lia.
  - unfold seconds_per_day in *.
    pose proof (Z.mod_pos_bound (to_time (time r)) 86400).
    pose proof (Z.div_mod (to_time (time r)) 86400).
    split; [intros|nia].
    symmetry. apply Z.div_unique with (to_time (time r) - day * 86400); lia.
Qed.




(** Where the dates of a range run from the day of its start to the day of
    its end, they include the day of every row of a time-sorted product
    whose durations are not negative. *)
Lemma floor_dates_cover (P : Product) :
  StronglySorted (λ r s, scet_le (time r) (time s)) (data P) →
  day_functions_monotone → dates_by_floor →
  range_contains_samples (data P) →
  days_covered P.
Proof.
  intros Hs Hm Hfloor Hrange.
  destruct (decide (level P = Some "L0")) as [HL|HL];
    [by apply days_covered_L0|].
  intros r Hr. unfold split_days, day_of. rewrite !bool_decide_false by done.
  assert (Hdiv : ∀ a b, a ≤ b →
            a `div` seconds_per_day ≤ b `div` seconds_per_day).
  { intros. apply Z.div_le_mono; [done|]. unfold seconds_per_day. lia. }
  unfold scet_timerange.
  destruct (head (data P)) as [a|] eqn:Ea;
    [|apply head_None in Ea; rewrite Ea in Hr; by apply elem_of_nil in Hr].
  destruct (last (data P)) as [z|] eqn:Ez;
    [|apply last_None in Ez; rewrite Ez in Hr; by apply elem_of_nil in Hr].
  unfold get_dates.
  destruct (Hfloor {| start := sub_half (time a) (timedel a);
                      end_ := add_half (time z) (timedel z) |})
    as [-> ->].
  simpl. apply elem_of_seqZ.
  destruct (StronglySorted_head_last
              (λ r s, scet_le (time r) (time s)) (data P) a z r)
    as [Har Hrz]; [intros ?; reflexivity|done..|].
  simpl in Har, Hrz.
  apply Hm in Har as [_ Har]. apply Hm in Hrz as [_ Hrz].
  destruct (Hrange a) as [Ha _]; [by eapply head_Some_elem_of|].
  destruct (Hrange z) as [_ Hz]; [by eapply last_Some_elem_of|].
  assert (to_time (sub_half (time a) (timedel a)) `div` seconds_per_day
          ≤ to_time (time r) `div` seconds_per_day) by (apply Hdiv; lia).
  assert (to_time (time r) `div` seconds_per_day
          ≤ to_time (add_half (time z) (timedel z))
            `div` seconds_per_day) by (apply Hdiv; lia).
  lia.
Qed.


(** C2, as the code has it: a fragment's control index is the increasing
    list of the control indices its rows reference, minus the smallest of
    them; it is 0..K-1 when the referenced indices leave no gap. *)
Theorem split_fragment_control_index (P : Product) f :
  constructed P →
  index <$> control P = seqZ 0 (Z.of_nat (length (control P))) →
  (∀ r, r ∈ data P → 0 ≤ control_index r < Z.of_nat (length (control P))) →
  f ∈ (split_to_files P).1 →
  ∃ day m rest,
    yielded P day = Some f
    ∧ np_unique (control_index <$> rows_of P (data P) day) = m :: rest
    ∧ index <$> control f = (λ i, i - m) <$> (m :: rest)
    ∧ ((∀ i j k, i ∈ m :: rest → k ∈ m :: rest → i ≤ j ≤ k →
          j ∈ m :: rest) →
       index <$> control f = seqZ 0 (Z.of_nat (length (control f)))).
Proof.
  intros Hc Hidx Href [day Hy]%split_to_files_elem_of.
  assert (Hr : rows_of P (data P) day ≠ []).
  { intros Hr. by rewrite (yielded_None _ _ Hr) in Hy. }
  destruct (yielded_Some P day Hc Hr)
    as (out & m & rest & Hy' & _ & Hu & _ & Hctl & _).
  rewrite Hy in Hy'. injection Hy' as <-.
  pose proof (np_unique_sorted (control_index <$> rows_of P (data P) day))
    as Hsorted. rewrite Hu in Hsorted.
  assert (Hindex : index <$> control f = (λ i, i - m) <$> (m :: rest)).
  { rewrite Hctl, <- list_fmap_compose.
    rewrite (list_fmap_compose index (λ i, i - m)). f_equal.
    transitivity (filter (λ i, i ∈ m :: rest) (index <$> control P)).
    { symmetry. apply (filter_fmap index (λ i, i ∈ m :: rest)). }
    rewrite Hidx.
    apply sorted_lt_eq; [|done|].
    - apply StronglySorted_filter, seqZ_sorted_lt.
    - intros x. rewrite list_elem_of_filter, elem_of_seqZ.
      split; [tauto|]. intros Hx. split; [done|].
      rewrite <- Hu in Hx. apply (proj1 (elem_of_np_unique _ _)) in Hx.
      apply list_elem_of_fmap in Hx as (r & -> & Hr').
      apply rows_of_spec in Hr' as [Hr' _]. apply Href in Hr'. lia. }
  exists day, m, rest. split_and!; try done.
  intros Hconv. rewrite Hindex at 1.
  rewrite (convex_sorted_seqZ (m :: rest) Hsorted Hconv). simpl head. simpl default.
  assert (Hlen : length (control f) = length (m :: rest)).
  { rewrite <- (length_fmap index), Hindex, length_fmap. done. }
  rewrite Hlen.
  etrans; [apply (list_fmap_ext _ (Z.add (- m))); intros; lia|].
  rewrite fmap_add_seqZ. f_equal. lia.
Qed.
End SplitTheorems.

(** ** Level transitions *)

Section LevelTransitionFacts.
Context `{Collaborators}.
Variable raw_to_engineering_product : Store → ProductRef → Store.

Lemma replace_parent_column_spec st a p :
  datas (replace_parent_column st a p) = datas st
  ∧ controls (replace_parent_column st a p) !! a
    = (fmap (set_parent p)) <$> controls st !! a
  ∧ (∀ b, b ≠ a →
       controls (replace_parent_column st a p) !! b = controls st !! b).
Proof.
  unfold replace_parent_column.
  destruct (controls st !! a) as [t|] eqn:E; simpl.
  - split; [done|]. split.
    + rewrite list_lookup_insert_eq; [done|]. by eapply lookup_lt_Some.
    + intros b Hb. by rewrite list_lookup_insert_ne.
  - by rewrite E.
Qed.

Lemma new_default_product st sst sid (c d : nat) idb n :
  service_name st = Ok n →
  ∃ p : ProductRef,
    new_product DefaultProduct st sst sid c d idb None = Ok p
    ∧ cls p = DefaultProduct ∧ control p = c ∧ data p = d
    ∧ idb_versions p = idb ∧ fits_header p = None.
Proof.
  intros Hn. unfold new_product. rewrite Hn. simpl. eexists. by split_and!.
Qed.

(** C1, as the code has it: a level transition returns a new product
    object that holds the control table, the data table and the
    [idb_versions] of its argument by reference; it overwrites the parent
    column of that shared control table in place, so the argument sees the
    new parent, and it changes no other table of the store and no other
    column. *)
Theorem level_transitions_share_tables st (P : ProductRef) new_parent n :
  service_name (service_type P) = Ok n →
  let st' := replace_parent_column st (control P) new_parent in
  (∃ l1,
     from_level0 raw_to_engineering_product st DefaultProduct P new_parent
     = (raw_to_engineering_product st' l1, Ok l1)
     ∧ control l1 = control P ∧ data l1 = data P
     ∧ idb_versions l1 = idb_versions P ∧ level l1 = Some "L1")
  ∧ (∀ hd, fits_header P = Some hd →
     ∃ l2,
       from_level1 st DefaultProduct P new_parent = (st', Ok [l2])
       ∧ control l2 = control P ∧ data l2 = data P
       ∧ idb_versions l2 = idb_versions P ∧ level l2 = Some "L2")
  ∧ datas st' = datas st
  ∧ controls st' !! control P
    = (fmap (set_parent new_parent)) <$> controls st !! control P
  ∧ (∀ b, b ≠ control P → controls st' !! b = controls st !! b)
  ∧ (∀ c, index (set_parent new_parent c) = index c
          ∧ scet_coarse (set_parent new_parent c) = scet_coarse c
          ∧ scet_fine (set_parent new_parent c) = scet_fine c
          ∧ integration_time (set_parent new_parent c) = integration_time c
          ∧ raw_file (set_parent new_parent c) = raw_file c
          ∧ parent (set_parent new_parent c) = new_parent).
Proof.
  intros Hn st'.
  destruct (new_default_product (service_type P) (service_subtype P)
              (ssid P) (control P) (data P) (idb_versions P) n Hn)
    as (p & Hp & Hcls & Hc & Hd & Hi & Hf).
  destruct (replace_parent_column_spec st (control P) new_parent)
    as (Hdatas & Hat & Hother).
  split; [|split; [|split_and!; done]].
  - exists (set_level "L1" p). unfold from_level0.
    cbn [has_level_mixins negb]. rewrite Hp, Hc. done.
  - intros hd Hhd. unfold from_level1.
    cbn [has_level_mixins negb]. rewrite Hp, Hc.
    unfold get_fits_header. rewrite Hhd.
    destruct (cls P); simpl; unfold set_fits_header; simpl; rewrite Hcls;
      eexists; (split; [done|]); simpl; done.
Qed.
End LevelTransitionFacts.

(** ** The concrete time service keeps the order of times *)




(** ** The statements on the example products *)

(** Membership in a list that is written out. *)
Ltac list_cases H :=
  repeat (apply elem_of_cons in H as [->|H]); [..|by apply elem_of_nil in H].




(** C1 on the example store: both transitions return, and their product
    refers to the control table of the argument. *)
Lemma level_transitions_share_tables_witness :
  service_name (service_type example_ref) = Ok "events"
  ∧ (∃ l1,
       from_level0 (λ st _, st) example_store DefaultProduct example_ref
         "solo_L1.fits"
       = (replace_parent_column example_store 0 "solo_L1.fits", Ok l1)
       ∧ control l1 = control example_ref)
  ∧ (∃ l2,
       @from_level1 reference_clock example_store DefaultProduct example_ref
         "solo_L1.fits"
       = (replace_parent_column example_store 0 "solo_L1.fits", Ok [l2])
       ∧ control l2 = control example_ref).
Proof.
  split; [reflexivity|].
  destruct (@level_transitions_share_tables reference_clock (λ st _, st)
              example_store example_ref "solo_L1.fits" "events" eq_refl)
    as ((l1 & Hl1 & Hc1 & _) & Hl2 & _).
  destruct (Hl2 _ eq_refl) as (l2 & Hl2' & Hc2 & _).
  split; [exists l1|exists l2]; split; assumption.
Defined.

(** C1 fails on the example store: after [from_level1] the control table of
    the argument carries the new parent name. *)
Lemma from_level1_overwrites_parent_of_argument :
  ∃ st' l2,
    @from_level1 reference_clock example_store DefaultProduct example_ref
      "solo_L2.fits" = (st', Ok [l2])
    ∧ control l2 = control example_ref
    ∧ controls example_store !! control example_ref
      = Some [control_row 0 "solo_L0.fits"]
    ∧ controls st' !! control example_ref
      = Some [control_row 0 "solo_L2.fits"].
Proof. eexists _, _. split; [reflexivity|]. by split_and!. Qed.

(** C2 fails on a time-sorted product with control index 0, 1, 2: the
    fragment of day 101 has the control index 0, 2. *)
Lemma split_fragment_control_index_gap :
  StronglySorted (λ r s, scet_le (time r) (time s)) (data example_interleaved)
  ∧ index <$> control example_interleaved = seqZ 0 3
  ∧ ∃ f1 f2,
      @split_to_files reference_clock example_interleaved = ([f1; f2], None)
      ∧ index <$> control f2 = [0; 2]
      ∧ index <$> control f2 ≠ seqZ 0 (Z.of_nat (length (control f2))).
Proof.
  split; [by apply (bool_decide_unpack _); vm_compute|].
  split; [reflexivity|].
  eexists _, _. split; [by vm_compute|]. split; [reflexivity|]. by vm_compute.
Qed.

(** C2 on the example of three days, at the fragment of day 103. *)
Lemma split_fragment_control_index_witness :
  ∃ day m rest,
    @yielded reference_clock example_three_days day
    = Some example_fragment_103
    ∧ np_unique
        (control_index
         <$> @rows_of reference_clock example_three_days
               (data example_three_days) day) = m :: rest
    ∧ index <$> control example_fragment_103 = (λ i, i - m) <$> (m :: rest)
    ∧ ((∀ i j k, i ∈ m :: rest → k ∈ m :: rest → i ≤ j ≤ k →
          j ∈ m :: rest) →
       index <$> control example_fragment_103
       = seqZ 0 (Z.of_nat (length (control example_fragment_103)))).
Proof.
  apply (@split_fragment_control_index reference_clock example_three_days
           example_fragment_103); [exact I|reflexivity| |].
  - intros r Hr. list_cases Hr; by vm_compute.
  - vm_compute. do 2 apply list_elem_of_further. apply list_elem_of_here.
Defined.






(** C7 on the example of three days. *)
Lemma split_skips_empty_days_witness :
  (∀ f, f ∈ (@split_to_files reference_clock example_three_days).1 →
        data f ≠ [])
  ∧ (∀ day, @emitted reference_clock example_three_days day
            ↔ ∃ r, r ∈ @rows_of reference_clock example_three_days
                         (data example_three_days) day)
  ∧ @split_days reference_clock example_three_days = [100; 101; 103]
  ∧ length (@split_to_files reference_clock example_three_days).1 = 3%nat
  ∧ @yielded reference_clock example_three_days 102 = None
  ∧ ¬ @emitted reference_clock example_three_days 102.
Proof.
  destruct (@split_skips_empty_days reference_clock example_three_days I)
    as (Hne & _ & Hiff & _ & Hscenario).
  split; [exact Hne|]. split; [apply Hiff; by left|].
  apply Hscenario; [reflexivity|].
  intros d. split.
  - intros Hd. list_cases Hd.
    + exists (sample (sceday 100) 0 0 1). split; [left|reflexivity].
    + exists (sample (sceday 101) 0 1 3).
      split; [do 2 right; left|reflexivity].
    + exists (sample (sceday 103) 0 2 4).
      split; [do 3 right; left|reflexivity].
  - intros (r & Hr & <-). list_cases Hr; by apply (bool_decide_unpack _); vm_compute.
Defined.

(** C7 fails on an L1 product whose rows are not in the order of their
    times: the dates of its time range are the days 100 and 101 of its first
    and last row, the row of day 105 falls in the interval of that day, and
    no fragment is yielded for it. *)
Lemma split_misses_unvisited_day :
  (∃ r, r ∈ @rows_of reference_clock example_unsorted_L1
              (data example_unsorted_L1) 105)
  ∧ ¬ @emitted reference_clock example_unsorted_L1 105
  ∧ @split_days reference_clock example_unsorted_L1 = [100; 101]
  ∧ length (@split_to_files reference_clock example_unsorted_L1).1 = 2%nat
  ∧ ¬ (∀ day, @emitted reference_clock example_unsorted_L1 day
              ↔ ∃ r, r ∈ @rows_of reference_clock example_unsorted_L1
                           (data example_unsorted_L1) day).
Proof.
  assert (Hrow : ∃ r, r ∈ @rows_of reference_clock example_unsorted_L1
                            (data example_unsorted_L1) 105).
  { exists (sample (sceday 105) 0 0 2).
    by apply (bool_decide_unpack _); vm_compute. }
  assert (Hno : ¬ @emitted reference_clock example_unsorted_L1 105).
  { intros [Hin _]%(@emitted_spec reference_clock); [|reflexivity].
    assert (E : @split_days reference_clock example_unsorted_L1 = [100; 101])
      by reflexivity.
    rewrite E in Hin. set_solver. }
  split; [exact Hrow|]. split; [exact Hno|].
  split; [reflexivity|]. split; [reflexivity|].
  intros Hall. by apply Hno, Hall.
Qed.



(** C10 fails on an empty [DefaultProduct] merged with a
    [GenericProduct]: the type error comes first; and it fails on a product
    without control and data rows merged with a product that has both: the
    control tables are stacked before the time ranges are read, and astropy
    does not stack them. *)
Lemma combine_empty_data_type_error_first :
  data example_empty_default = []
  ∧ isinstance example_A (cls example_empty_default) = false
  ∧ @__add__ reference_clock numpy_wrap 8 8 [] example_empty_default example_A
    = Raise (TypeError
               "Products must of same type not <class 'stixcore.products.product.DefaultProduct'> and <class 'stixcore.products.product.GenericProduct'>")
  ∧ isinstance example_default (cls example_empty_default) = true
  ∧ @__add__ reference_clock numpy_wrap 8 8 [] example_empty_default
      example_default
    = Raise TableMergeError
  ∧ isinstance example_empty_default (cls example_default) = true
  ∧ @__add__ reference_clock numpy_wrap 8 8 [] example_default
      example_empty_default
    = Raise TableMergeError.
Proof. by split_and!. Qed.

(** C10 on a [DefaultProduct] with a control row and no data row and one
    with a data row. *)
Lemma empty_data_index_error_witness :
  @scet_timerange reference_clock (data example_no_data) = Raise IndexError
  ∧ @__add__ reference_clock numpy_wrap 8 8 [] example_no_data example_default
    = Raise IndexError
  ∧ @__add__ reference_clock numpy_wrap 8 8 [] example_default example_no_data
    = Raise IndexError
  ∧ ∃ h' R, @__add__ reference_clock numpy_wrap 8 8 [] example_default
              example_default
            = Ok (h', R).
Proof.
  destruct (@empty_data_index_error reference_clock numpy_wrap 8 8 []
              example_no_data example_default) as [Hempty _].
  destruct (Hempty eq_refl) as (Hr & Hl & Hrr).
  destruct (@empty_data_index_error reference_clock numpy_wrap 8 8 []
              example_default example_default) as [_ Hfull].
  destruct Hfull as [_ Hok]; [discriminate|discriminate|].
  destruct (Hok eq_refl eq_refl) as [_ Hfit]; [done|].
  split; [exact Hr|]. split; [by apply Hl|].
  split; [by apply Hrr|]. apply Hfit; by vm_compute.
Defined.

(** * Further properties of the code *)

(** ** Merge: which rows are kept *)

Section UniqueMore.
Context {A : Type} (key : A → Z).

Lemma key_lt_NoDup l : StronglySorted (key_lt key) l → NoDup l.
Proof.
  induction 1 as [|x l Hl IH Hx]; constructor; [|done].
  intros Hin. rewrite Forall_forall in Hx. specialize (Hx _ Hin).
  unfold key_lt in Hx. lia.
Qed.

Lemma key_lt_NoDup_keys l : StronglySorted (key_lt key) l → NoDup (key <$> l).
Proof.
  induction 1 as [|x l Hl IH Hx]; csimpl; constructor; [|done].
  intros Hin. apply list_elem_of_fmap in Hin as (y & Hk & Hy).
  rewrite Forall_forall in Hx. specialize (Hx _ Hy).
  unfold key_lt in Hx. lia.
Qed.

Lemma unique_ext l l' :
  (∀ r, first_of key l r ↔ first_of key l' r) → unique key l = unique key l'.
Proof.
  intros Hiff.
  apply (StronglySorted_unique_strong (key_lt key)).
  - intros x y _ _. unfold key_lt. lia.
  - apply unique_sorted.
  - apply unique_sorted.
  - apply NoDup_Permutation.
    + apply key_lt_NoDup, unique_sorted.
    + apply key_lt_NoDup, unique_sorted.
    + intros r. by rewrite !elem_of_unique.
Qed.

Lemma first_of_app l1 l2 r :
  first_of key (l1 ++ l2) r
  ↔ first_of key l1 r
    ∨ (first_of key l2 r ∧ ∀ x, x ∈ l1 → key x ≠ key r).
Proof.
  unfold first_of. rewrite filter_app.
  destruct (filter (λ x, key x = key r) l1) as [|x l] eqn:E; simpl.
  - split; [|naive_solver]. intros Hh. right. split; [done|].
    intros x Hx Hk.
    assert (Hin : x ∈ filter (λ x, key x = key r) l1)
      by by apply list_elem_of_filter.
    rewrite E in Hin. by apply elem_of_nil in Hin.
  - split; [by left|]. intros [?|[_ Hno]]; [done|].
    assert (Hx : x ∈ filter (λ x, key x = key r) l1) by (rewrite E; left).
    apply list_elem_of_filter in Hx as [Hk Hx]. by destruct (Hno x Hx).
Qed.

Lemma unique_app_self l : unique key (l ++ l) = unique key l.
Proof.
  apply unique_ext. intros r. rewrite first_of_app. split; [|by left].
  intros [?|[Hf Hno]]; [done|].
  apply first_of_elem_of in Hf as Hin. by destruct (Hno r Hin).
Qed.

Lemma unique_length_le l : (length (unique key l) ≤ length l)%nat.
Proof.
  apply submseteq_length, NoDup_submseteq.
  - apply key_lt_NoDup, unique_sorted.
  - apply elem_of_unique_elem_of.
Qed.
End UniqueMore.

Section MergeMore.
Context `{Collaborators}.

Lemma new_product_fields {C D} c st sst sid (ctl : C) (d : D) idb lv out :
  new_product c st sst sid ctl d idb (Some lv) = Ok out →
  cls out = c ∧ level out = lv ∧ control out = ctl ∧ data out = d
  ∧ idb_versions out = idb ∧ service_type out = st
  ∧ service_subtype out = sst ∧ ssid out = sid ∧ fits_header out = None
  ∧ constructed out.
Proof.
  unfold new_product, constructed. destruct c; simpl.
  - by intros [= <-].
  - destruct (service_name st) eqn:E; simpl; [|done]. by intros [= <-].
Qed.

Lemma combine_inv h (A B : Product) h' R :
  combine h A B = Ok (h', R) →
  isinstance B (cls A) = true
  ∧ ∃ ra rb,
      scet_timerange (data A) = Ok ra ∧ scet_timerange (data B) = Ok rb
      ∧ (control R, data R) = combine_tables (start ra) (start rb) A B
      ∧ (h', idb_versions R)
        = merge_idb_versions h (idb_versions A) (idb_versions B)
      ∧ cls R = cls A ∧ level R = level A ∧ constructed R.
Proof.
  unfold combine. destruct (isinstance B (cls A)); simpl; [|done].
  destruct (scet_timerange (data A)) as [ra|] eqn:Era; simpl; [|done].
  destruct (scet_timerange (data B)) as [rb|] eqn:Erb; simpl; [|done].
  destruct (combine_tables (start ra) (start rb) A B) as [c d] eqn:Et.
  destruct (merge_idb_versions h (idb_versions A) (idb_versions B))
    as [h1 idb] eqn:Em.
  destruct (new_product _ _ _ _ _ _ _ _) as [out|] eqn:En; simpl; [|done].
  intros [= <- <-]. split; [done|]. exists ra, rb.
  apply new_product_fields in En as (? & ? & ? & ? & ? & ? & ? & ? & ? & ?).
  split_and!; try done; congruence.
Qed.

Lemma scet_timerange_Ok_inv (d : Data) r : scet_timerange d = Ok r → d ≠ [].
Proof. intros Hr ->. by rewrite scet_timerange_empty in Hr. Qed.

Lemma stack_data_rows sa sb (A B : Product) :
  (stack_data sa sb (tagged_data "s" (data A)) (tagged_data "o" (data B))).*2
  = stacked_rows sa sb A B.
Proof.
  unfold stack_data, stacked_rows, tagged_data.
  destruct (scet_leb sa sb); rewrite fmap_app, <-!list_fmap_compose;
    f_equal; by rewrite <-(list_fmap_id (data _)) at 2.
Qed.

Lemma merged_rows_rows sa sb (A B : Product) :
  (merged_rows sa sb A B).*2 = unique row_key (stacked_rows sa sb A B).
Proof.
  unfold merged_rows. rewrite <-stack_data_rows.
  symmetry. apply (unique_fmap row_key snd).
Qed.

Lemma bare_renumber final (rows : list (string * DataRow)) :
  bare <$> (renumber final <$> rows).*2 = bare <$> rows.*2.
Proof. rewrite <-!list_fmap_compose. by apply list_fmap_ext. Qed.

Lemma combine_tables_bare sa sb A B :
  bare <$> (combine_tables sa sb A B).2
  = bare <$> unique row_key (stacked_rows sa sb A B).
Proof.
  destruct (combine_tables_data sa sb A B) as (final & _ & _ & -> & _).
  by rewrite bare_renumber, merged_rows_rows.
Qed.
End MergeMore.

Section MergeExtras.
Context `{Collaborators}.

(** X1: where two operands of a successful merge have rows with the same
    rounded time key, the row of the operand whose time range starts first
    wins (the left operand on a tie): apart from [control_index], the rows
    of the result are the first rows per key of that operand, and the first
    rows per key of the other operand whose key the first operand lacks. *)
Theorem combine_overlap_first_wins h (A B : Product) h' R :
  combine h A B = Ok (h', R) →
  ∃ ra rb,
    scet_timerange (data A) = Ok ra ∧ scet_timerange (data B) = Ok rb
    ∧ let W := if scet_leb (start ra) (start rb) then data A else data B in
      let L := if scet_leb (start ra) (start rb) then data B else data A in
      ∀ b, b ∈ bare <$> data R
           ↔ (∃ w, first_of row_key W w ∧ bare w = b)
             ∨ (∃ l, first_of row_key L l
                     ∧ (∀ w, w ∈ W → row_key w ≠ row_key l) ∧ bare l = b).
Proof.
  intros Hc. apply combine_inv in Hc as (_ & ra & rb & Hra & Hrb & Ht & _).
  exists ra, rb. split_and!; [done..|]. intros W L b.
  assert (Hd : data R = (combine_tables (start ra) (start rb) A B).2)
    by by rewrite <-Ht.
  rewrite Hd, combine_tables_bare, list_elem_of_fmap.
  assert (Hs : stacked_rows (start ra) (start rb) A B = W ++ L).
  { unfold stacked_rows, W, L. by destruct (scet_leb _ _). }
  rewrite Hs. split.
  - intros (r & -> & Hr). apply elem_of_unique, first_of_app in Hr.
    destruct Hr as [Hr|[Hr Hno]]; [left|right]; eauto.
  - intros [(w & Hw & <-)|(l & Hl & Hno & <-)].
    + exists w. split; [done|]. apply elem_of_unique, first_of_app. by left.
    + exists l. split; [done|]. apply elem_of_unique, first_of_app. by right.
Qed.

(** X2: the rows of a merged product are strictly ascending in the rounded
    time key, every key of an operand occurs in it, no other key does, and
    it has no more rows than the operands together; this needs no
    assumption on the operands or on the rounding. *)
Theorem combine_keys_union h (A B : Product) h' R :
  combine h A B = Ok (h', R) →
  StronglySorted (key_lt row_key) (data R)
  ∧ (∀ k, k ∈ row_key <$> data R ↔ k ∈ row_key <$> data A ++ data B)
  ∧ (length (data R) ≤ length (data A) + length (data B))%nat.
Proof.
  intros Hc. apply combine_inv in Hc as (_ & ra & rb & Hra & Hrb & Ht & _).
  assert (Hd : data R = (combine_tables (start ra) (start rb) A B).2)
    by by rewrite <-Ht.
  pose proof (combine_tables_bare (start ra) (start rb) A B) as Hb.
  rewrite <-Hd in Hb.
  assert (Hk : row_key <$> data R
               = row_key <$> unique row_key
                               (stacked_rows (start ra) (start rb) A B)).
  { change row_key with ((λ b : SCETime * SCETimeDelta * list Z,
                            time_float b.1.1) ∘ bare).
    by rewrite !list_fmap_compose, Hb. }
  assert (Hperm : stacked_rows (start ra) (start rb) A B
                  ≡ₚ data A ++ data B).
  { unfold stacked_rows. destruct (scet_leb _ _); [done|].
    apply Permutation_app_comm. }
  split_and!.
  - pose proof (unique_sorted row_key
                  (stacked_rows (start ra) (start rb) A B)) as Hs.
    revert Hk Hs. generalize (unique row_key
                  (stacked_rows (start ra) (start rb) A B)).
    clear. induction (data R) as [|x l IH]; intros [|y l'] Hk Hs;
      [constructor|done|done|].
    rewrite !fmap_cons in Hk. injection Hk as Hxy Hl.
    inversion Hs as [|?? Hs' Hall]; subst.
    constructor; [by apply (IH l')|].
    rewrite Forall_forall in Hall |- *. intros z Hz.
    assert (Hz' : row_key z ∈ row_key <$> l')
      by (rewrite <-Hl; by apply list_elem_of_fmap_2).
    apply list_elem_of_fmap in Hz' as (z' & Hzk & Hz').
    specialize (Hall _ Hz'). unfold key_lt in *. congruence.
  - intros k. rewrite Hk, <-Hperm, !list_elem_of_fmap. split.
    + intros (r & -> & Hr). exists r. split; [done|].
      by apply elem_of_unique_elem_of in Hr.
    + intros (x & -> & Hx).
      destruct (unique_keys row_key _ _ Hx) as (r & Hr & Hkr). eauto.
  - rewrite <-length_app, <-Hperm.
    rewrite <-(length_fmap bare (data R)), Hb, length_fmap.
    apply unique_length_le.
Qed.

(** X3: merging a product with itself adds no row: apart from
    [control_index], the result holds the first row of each rounded time
    key of the product, and all its rows in their order when their keys
    are strictly ascending. *)
Theorem combine_idempotent h (P : Product) h' R :
  combine h P P = Ok (h', R) →
  bare <$> data R = bare <$> unique row_key (data P)
  ∧ (StronglySorted (key_lt row_key) (data P) →
       bare <$> data R = bare <$> data P).
Proof.
  intros Hc. apply combine_inv in Hc as (_ & ra & rb & Hra & Hrb & Ht & _).
  assert (Hd : data R = (combine_tables (start ra) (start rb) P P).2)
    by by rewrite <-Ht.
  assert (He : bare <$> data R = bare <$> unique row_key (data P)).
  { rewrite Hd, combine_tables_bare. unfold stacked_rows.
    destruct (scet_leb _ _); by rewrite unique_app_self. }
  split; [done|]. intros Hs. by rewrite He, unique_id.
Qed.
End MergeExtras.

Lemma scet_leb_antisym a b :
  scet_leb a b = true → scet_leb b a = true → a = b.
Proof.
  intros H1 H2. apply scet_le_spec in H1, H2.
  destruct a, b; simpl in *. f_equal; lia.
Qed.

Section MergeCommute.
Context `{Collaborators}.

(** X4: the data of a merge does not depend on the order of the operands,
    apart from [control_index], when the time ranges of the operands start
    at different times or when no rounded time key occurs in both: only on
    a tie of the starts can the order decide which of two rows with the
    same key is kept. *)
Theorem combine_commutative_data h (A B : Product) h1 R1 h2 R2 ra rb :
  combine h A B = Ok (h1, R1) → combine h B A = Ok (h2, R2) →
  scet_timerange (data A) = Ok ra → scet_timerange (data B) = Ok rb →
  start ra ≠ start rb ∨ keys_disjoint (data A) (data B) →
  bare <$> data R1 = bare <$> data R2.
Proof.
  intros Hab Hba Hra Hrb Hor.
  apply combine_inv in Hab as (_ & ra1 & rb1 & Hra1 & Hrb1 & Ht1 & _).
  apply combine_inv in Hba as (_ & rb2 & ra2 & Hrb2 & Hra2 & Ht2 & _).
  assert (ra1 = ra) as -> by congruence.
  assert (ra2 = ra) as -> by congruence.
  assert (rb1 = rb) as -> by congruence.
  assert (rb2 = rb) as -> by congruence.
  assert (Hd1 : data R1 = (combine_tables (start ra) (start rb) A B).2)
    by by rewrite <-Ht1.
  assert (Hd2 : data R2 = (combine_tables (start rb) (start ra) B A).2)
    by by rewrite <-Ht2.
  rewrite Hd1, Hd2, !combine_tables_bare. f_equal. unfold stacked_rows.
  destruct (scet_leb (start ra) (start rb)) eqn:E1,
    (scet_leb (start rb) (start ra)) eqn:E2; [|done|done|].
  - destruct Hor as [Hne|Hdis].
    + destruct Hne. by apply scet_leb_antisym.
    + apply unique_ext. intros r.
      rewrite !first_of_app_disjoint; [tauto| |done].
      intros x y Hx Hy Hk. by apply (Hdis y x).
  - apply scet_leb_false in E1, E2.
    destruct Hor as [Hne|Hdis].
    + destruct Hne. by apply scet_leb_antisym.
    + apply unique_ext. intros r.
      rewrite !first_of_app_disjoint; [tauto|done|].
      intros x y Hx Hy Hk. by apply (Hdis y x).
Qed.
End MergeCommute.

(** ** Merge: the links between the tables *)

Lemma NoDup_fmap_eq {A B} (f : A → B) (l : list A) x y :
  NoDup (f <$> l) → x ∈ l → y ∈ l → f x = f y → x = y.
Proof.
  induction l as [|a l IH]; csimpl; [by intros _ ?%elem_of_nil|].
  intros [Ha Hl]%NoDup_cons [->|Hx]%elem_of_cons [->|Hy]%elem_of_cons Hf;
    [done| | |by apply IH].
  - destruct Ha. rewrite Hf. by apply list_elem_of_fmap_2.
  - destruct Ha. rewrite <-Hf. by apply list_elem_of_fmap_2.
Qed.

Lemma ids_dense_inj m t t' n :
  ids_dense m → m !! t = Some n → m !! t' = Some n → t = t'.
Proof.
  intros Hd Ht Ht'.
  assert (Hn : NoDup (map_to_list m).*2).
  { unfold ids_dense in Hd. rewrite Hd. apply NoDup_seqZ. }
  apply elem_of_map_to_list in Ht, Ht'.
  by pose proof (NoDup_fmap_eq snd _ _ _ Hn Ht Ht' eq_refl) as [= ->].
Qed.

Lemma elem_of_reindex_control m (ctl : list (string * ControlRow)) p :
  p ∈ reindex_control m ctl
  ↔ ∃ c0 n, (p.1, c0) ∈ ctl ∧ m !! p.1 = Some n ∧ p.2 = set_index n c0.
Proof.
  unfold reindex_control. rewrite list_elem_of_omap. split.
  - intros ([t c0] & Hin & Hp). destruct (m !! t) as [n|] eqn:E; [|done].
    simplify_eq/=. eauto.
  - intros (c0 & n & Hin & Hm & Hp). exists (p.1, c0). split; [done|].
    rewrite Hm. destruct p; simpl in *. by subst.
Qed.

Section MergeRows.
Context `{Collaborators}.

(** The rows of both tables of a merge in terms of the tags and of the
    final [newids]. *)
Lemma combine_tables_rows sa sb (A B : Product) :
  ∃ final : gmap string Z,
    (∀ t t' n, final !! t = Some n → final !! t' = Some n → t = t')
    ∧ (∀ t, is_Some (final !! t) ↔ t ∈ (merged_rows sa sb A B).*1)
    ∧ (∀ r, r ∈ (combine_tables sa sb A B).2
            ↔ ∃ p, p ∈ merged_rows sa sb A B
                   ∧ r = set_control_index (default 0 (final !! p.1)) p.2)
    ∧ (∀ c, c ∈ (combine_tables sa sb A B).1
            ↔ ∃ t c0 n,
                (t, c0) ∈ tagged_control "s" (control A)
                          ++ tagged_control "o" (control B)
                ∧ final !! t = Some n ∧ c = set_index n c0).
Proof.
  destruct (combine_tables_data sa sb A B) as (final & Hd & Hdom & -> & ->).
  exists final. split_and!.
  - intros t t' n. by apply ids_dense_inj.
  - intros t. rewrite <-elem_of_dom, Hdom. set_solver.
  - intros r. rewrite list_elem_of_fmap. split.
    + intros (q & -> & (p & -> & Hp)%list_elem_of_fmap). by exists p.
    + intros (p & Hp & ->). exists (renumber final p). split; [done|].
      by apply list_elem_of_fmap_2.
  - intros c. rewrite list_elem_of_fmap. split.
    + intros (q & -> & Hq). rewrite table_sort_perm in Hq.
      apply elem_of_reindex_control in Hq as (c0 & n & ? & ? & ?).
      by exists q.1, c0, n.
    + intros (t & c0 & n & Hin & Hm & ->). exists (t, set_index n c0).
      split; [done|]. rewrite table_sort_perm.
      apply elem_of_reindex_control. eauto.
Qed.

Lemma elem_of_tagged_control prefix (c : Control) t c0 :
  (t, c0) ∈ tagged_control prefix c
  ↔ c0 ∈ c ∧ t = old_index_tag prefix (index c0).
Proof.
  unfold tagged_control. rewrite list_elem_of_fmap. naive_solver.
Qed.
End MergeRows.

Section MergeLinks.
Context `{Collaborators}.


(** The links of a merge, on columns that hold every new id. *)
Lemma combine_links h (A B : Product) h' R :
  combine h A B = Ok (h', R) →
  ∀ r, r ∈ data R →
    ∃ X r0, (X = A ∨ X = B) ∧ r0 ∈ data X ∧ bare r = bare r0
      ∧ ∀ c, c ∈ control R ∧ index c = control_index r
             ↔ ∃ c0, c0 ∈ control X ∧ index c0 = control_index r0
                     ∧ c = set_index (control_index r) c0.
Proof.
  intros Hc.
  apply combine_inv in Hc as (_ & ra & rb & _ & _ & Ht & _).
  destruct (combine_tables_rows (start ra) (start rb) A B)
    as (final & Hinj & Hdom & Hdata & Hctl).
  rewrite <-Ht in Hdata, Hctl. simpl in Hdata, Hctl. intros r Hin.
  apply Hdata in Hin as (p & Hp & ->).
  assert (Hn : is_Some (final !! p.1))
    by (apply Hdom; by apply list_elem_of_fmap_2).
  destruct Hn as [n Hn]. rewrite Hn. simpl.
  destruct (merged_rows_source _ _ _ _ _ Hp)
    as [(r0 & Hr0 & ->)|(r0 & Hr0 & ->)]; simpl in *.
  - exists A, r0. split_and!; [by left|done|done|]. intros c. split.
    + intros [(t & c0 & n' & Hin & Hn' & ->)%Hctl Hi]. simpl in Hi. subst n'.
      pose proof (Hinj _ _ _ Hn Hn') as Htag.
      apply elem_of_app in Hin as [Hin|Hin];
        apply elem_of_tagged_control in Hin as [Hc0 ->].
      * apply (inj _) in Htag. eauto.
      * by apply old_index_tag_s_o in Htag.
    + intros (c0 & Hc0 & Hi & ->). split; [|done]. apply Hctl.
      exists (old_index_tag "s" (index c0)), c0, n. split_and!; [|by rewrite Hi|done].
      apply elem_of_app. left. by apply elem_of_tagged_control.
  - exists B, r0. split_and!; [by right|done|done|]. intros c. split.
    + intros [(t & c0 & n' & Hin & Hn' & ->)%Hctl Hi]. simpl in Hi. subst n'.
      pose proof (Hinj _ _ _ Hn Hn') as Htag.
      apply elem_of_app in Hin as [Hin|Hin];
        apply elem_of_tagged_control in Hin as [Hc0 ->].
      * symmetry in Htag. by apply old_index_tag_s_o in Htag.
      * apply (inj _) in Htag. eauto.
    + intros (c0 & Hc0 & Hi & ->). split; [|done]. apply Hctl.
      exists (old_index_tag "o" (index c0)), c0, n. split_and!; [|by rewrite Hi|done].
      apply elem_of_app. right. by apply elem_of_tagged_control.
Qed.

(** X6: a merge whose [index] and [control_index] columns have a value
    for every packet that the two data tables refer to keeps the link
    between a data row and its control rows: every data row of the result
    is a data row of one operand with a new [control_index], and the
    control rows of the result with that index are exactly the control rows
    of that operand that the data row referenced there, with the new
    [index]. *)
Theorem combine_preserves_links (out_of_range : Z → Z → option Z) ib cb h
    (A B : Product) h' R :
  __add__ out_of_range ib cb h A B = Ok (h', R) →
  packets_fit ib A B → packets_fit cb A B →
  ∀ r, r ∈ data R →
    ∃ X r0, (X = A ∨ X = B) ∧ r0 ∈ data X ∧ bare r = bare r0
      ∧ ∀ c, c ∈ control R ∧ index c = control_index r
             ↔ ∃ c0, c0 ∈ control X ∧ index c0 = control_index r0
                     ∧ c = set_index (control_index r) c0.
Proof.
  intros Hadd Hib Hcb.
  pose proof (add_Ok_inv _ _ _ _ _ _ _ Hadd) as Hab.
  rewrite add_combine in Hadd by done.
  by apply (combine_links h A B h' R).
Qed.
End MergeLinks.

(** ** Merge: the exact [idb_versions] *)

Section IdbExact.
Context `{Collaborators}.

Lemma clone_ranges_exact h (self_idb : gmap string nat) :
  (∀ k a, self_idb !! k = Some a → (a < length h)%nat) →
  let r := clone_ranges h self_idb in
  built h r.1 r.2
  ∧ (∀ k k' a, r.2 !! k = Some a → r.2 !! k' = Some a → k = k')
  ∧ (∀ k, r.2 !! k ≫= (r.1 !!.) = deref h <$> self_idb !! k).
Proof.
  unfold clone_ranges.
  apply (map_fold_weak_ind (λ r m,
    (∀ k a, m !! k = Some a → (a < length h)%nat) →
    built h r.1 r.2
    ∧ (∀ k k' a, r.2 !! k = Some a → r.2 !! k' = Some a → k = k')
    ∧ (∀ k, r.2 !! k ≫= (r.1 !!.) = deref h <$> m !! k))).
  - intros _. split; [split; simpl; [done|done|]|].
    + intros k a; by rewrite lookup_empty.
    + split; intros k; simpl; by rewrite !lookup_empty.
  - intros k a m [h' d] Hk IH Hvalid.
    destruct IH as (Hb & Hinj & Hval).
    { intros k' a' Hk'. apply (Hvalid k' a').
      rewrite lookup_insert_ne; [done|]. congruence. }
    assert (Ha : (a < length h)%nat)
      by (apply (Hvalid k a); by rewrite lookup_insert_eq).
    simpl in *. split; [by apply built_alloc|]. split.
    + intros k1 k2 a'. destruct (decide (k = k1)) as [<-|],
        (decide (k = k2)) as [<-|]; [done|..];
        rewrite ?lookup_insert_eq, ?lookup_insert_ne by done.
      * intros [= <-] Hd. apply (built_fresh _ _ _ Hb) in Hd. lia.
      * intros Hd [= <-]. apply (built_fresh _ _ _ Hb) in Hd. lia.
      * apply Hinj.
    + intros k'. destruct (decide (k = k')) as [->|].
      * rewrite !lookup_insert_eq. simpl.
        rewrite lookup_app_r, Nat.sub_diag by lia. simpl. f_equal.
        rewrite (built_deref _ _ _ _ Hb Ha).
        by destruct (deref h a) as [[] []].
      * rewrite !lookup_insert_ne by done. rewrite <-Hval.
        destruct (d !! k') as [a'|] eqn:Hd; simpl; [|done].
        apply (built_fresh _ _ _ Hb) in Hd. by rewrite lookup_app_l by lia.
Qed.

Lemma expand_ranges_exact h st (v0 : string → option SCETimeRange)
    (other_idb : gmap string nat) :
  built h st.1 st.2 →
  (∀ k k' a, st.2 !! k = Some a → st.2 !! k' = Some a → k = k') →
  (∀ k, st.2 !! k ≫= (st.1 !!.) = v0 k) →
  (∀ k a, other_idb !! k = Some a → (a < length h)%nat) →
  let r := expand_ranges st other_idb in
  built h r.1 r.2
  ∧ (∀ k k' a, r.2 !! k = Some a → r.2 !! k' = Some a → k = k')
  ∧ (∀ k, r.2 !! k ≫= (r.1 !!.)
          = match other_idb !! k with
            | None => v0 k
            | Some b =>
                Some (expand (default default_range (v0 k)) (deref h b))
            end).
Proof.
  intros Hb0 Hinj0 Hval0. unfold expand_ranges.
  apply (map_fold_weak_ind (λ r m,
    (∀ k a, m !! k = Some a → (a < length h)%nat) →
    built h r.1 r.2
    ∧ (∀ k k' a, r.2 !! k = Some a → r.2 !! k' = Some a → k = k')
    ∧ (∀ k, r.2 !! k ≫= (r.1 !!.)
            = match m !! k with
              | None => v0 k
              | Some b =>
                  Some (expand (default default_range (v0 k)) (deref h b))
              end))).
  - intros _. split_and!; [done..|]. intros k. by rewrite lookup_empty.
  - intros k a m [h' d] Hk IH Hvalid.
    destruct IH as (Hb & Hinj & Hval).
    { intros k' a' Hk'. apply (Hvalid k' a').
      rewrite lookup_insert_ne; [done|]. congruence. }
    assert (Ha : (a < length h)%nat)
      by (apply (Hvalid k a); by rewrite lookup_insert_eq).
    simpl in Hb, Hinj, Hval.
    assert (Hgoal : ∀ h1 d1 t, built h h1 d1 →
              (∀ k k' a, d1 !! k = Some a → d1 !! k' = Some a → k = k') →
              d1 !! k = Some t →
              h1 !! t = Some (default default_range (v0 k)) →
              (∀ k', k' ≠ k → d1 !! k' ≫= (h1 !!.)
                              = match m !! k' with
                                | None => v0 k'
                                | Some b =>
                                    Some (expand (default default_range (v0 k'))
                                            (deref h b))
                                end) →
              let h2 := <[t := expand (deref h1 t) (deref h1 a)]> h1 in
              built h h2 d1
              ∧ (∀ k k' a, d1 !! k = Some a → d1 !! k' = Some a → k = k')
              ∧ (∀ k', d1 !! k' ≫= (h2 !!.)
                       = match <[k := a]> m !! k' with
                         | None => v0 k'
                         | Some b =>
                             Some (expand (default default_range (v0 k'))
                                     (deref h b))
                         end)).
    { intros h1 d1 t Hb1 Hinj1 Hd1 Ht1 Hval1 h2.
      pose proof (built_fresh _ _ _ Hb1 _ _ Hd1) as Ht.
      split; [apply built_expand; [done|lia]|]. split; [done|].
      intros k'. destruct (decide (k = k')) as [<-|Hne].
      - rewrite lookup_insert_eq, Hd1. simpl. unfold h2.
        rewrite list_lookup_insert_eq by lia. f_equal.
        rewrite (built_deref _ _ _ _ Hb1 Ha). unfold deref at 1.
        by rewrite Ht1.
      - rewrite lookup_insert_ne by done. rewrite <-Hval1 by done.
        destruct (d1 !! k') as [t'|] eqn:Hd'; simpl; [|done].
        unfold h2. rewrite list_lookup_insert_ne; [done|].
        intros ->. destruct Hne. by apply (Hinj1 _ _ t'). }
    pose proof (Hval k) as Hvk. rewrite Hk in Hvk.
    destruct (d !! k) as [t|] eqn:Hdk; simpl in *.
    + apply Hgoal; [done|done|done| |by intros k' _].
      pose proof (built_fresh _ _ _ Hb _ _ Hdk) as Ht.
      assert (t < length h')%nat as [x Hx]%lookup_lt_is_Some_2 by lia.
      rewrite Hx in Hvk. by rewrite <-Hvk.
    + apply Hgoal.
      * by apply built_alloc.
      * intros k1 k2 a'. destruct (decide (k = k1)) as [<-|],
          (decide (k = k2)) as [<-|]; [done|..];
          rewrite ?lookup_insert_eq, ?lookup_insert_ne by done.
        -- intros [= <-] Hd. apply (built_fresh _ _ _ Hb) in Hd. lia.
        -- intros Hd [= <-]. apply (built_fresh _ _ _ Hb) in Hd. lia.
        -- apply Hinj.
      * by rewrite lookup_insert_eq.
      * rewrite lookup_app_r, Nat.sub_diag by lia. simpl. by rewrite <-Hvk.
      * intros k' Hne. rewrite lookup_insert_ne by done. rewrite <-Hval.
        destruct (d !! k') as [t'|] eqn:Hd'; simpl; [|done].
        apply (built_fresh _ _ _ Hb) in Hd'. by rewrite lookup_app_l by lia.
Qed.

Lemma merge_idb_versions_exact h (self_idb other_idb : gmap string nat) :
  (∀ k a, self_idb !! k = Some a → (a < length h)%nat) →
  (∀ k a, other_idb !! k = Some a → (a < length h)%nat) →
  let r := merge_idb_versions h self_idb other_idb in
  (∀ k k' a, r.2 !! k = Some a → r.2 !! k' = Some a → k = k')
  ∧ (∀ k, r.2 !! k ≫= (r.1 !!.) = merged_range h self_idb other_idb k).
Proof.
  intros Hs Ho.
  destruct (clone_ranges_exact h self_idb Hs) as (Hb & Hinj & Hval).
  destruct (expand_ranges_exact h _ _ other_idb Hb Hinj Hval Ho)
    as (_ & Hinj' & Hval').
  split; [done|]. intros k. unfold merge_idb_versions. rewrite Hval'.
  unfold merged_range. by destruct (self_idb !! k), (other_idb !! k).
Qed.

(** X7: the merged [idb_versions] is exact and unshared: under each key it
    holds the range of the left operand expanded by the range of the right
    operand, a copy of the left operand's range for a key of the left
    operand alone, and the default range expanded by the right operand's
    range for a key of the right operand alone; it has no other key, and no
    two keys hold the same range object. *)
Theorem combine_idb_versions_exact h (A B : Product) h' R :
  combine h A B = Ok (h', R) →
  (∀ k a, idb_versions A !! k = Some a → (a < length h)%nat) →
  (∀ k a, idb_versions B !! k = Some a → (a < length h)%nat) →
  (∀ k, idb_versions R !! k ≫= (h' !!.)
        = merged_range h (idb_versions A) (idb_versions B) k)
  ∧ (∀ k, is_Some (idb_versions R !! k)
          ↔ is_Some (idb_versions A !! k) ∨ is_Some (idb_versions B !! k))
  ∧ (∀ k k' a, idb_versions R !! k = Some a → idb_versions R !! k' = Some a →
       k = k').
Proof.
  intros Hc HA HB.
  apply combine_inv in Hc as (_ & ra & rb & _ & _ & _ & Hm & _).
  destruct (merge_idb_versions_exact h _ _ HA HB) as (Hinj & Hval).
  destruct (merge_idb_versions_spec h _ _ HA HB) as (Hb & _ & _).
  rewrite <-Hm in Hinj, Hval, Hb. simpl in *.
  split_and!; [done| |done]. intros k. specialize (Hval k).
  unfold merged_range in Hval. split.
  - intros [a Hk]. rewrite Hk in Hval. simpl in Hval.
    destruct (idb_versions A !! k), (idb_versions B !! k); eauto.
    apply (built_fresh _ _ _ Hb) in Hk.
    assert (a < length h')%nat as [x Hx]%lookup_lt_is_Some_2 by lia.
    by rewrite Hx in Hval.
  - intros Hor. destruct (idb_versions R !! k); [eauto|]. simpl in Hval.
    destruct Hor as [[? HAk]|[? HBk]]; [rewrite HAk in Hval|rewrite HBk in Hval];
      by destruct (idb_versions A !! k), (idb_versions B !! k).
Qed.
End IdbExact.

(** ** Split: the fragments *)

Lemma omap_filter_Forall2 {A B} (f : A → option B) (l : list A) :
  Forall2 (λ x y, f x = Some y) (filter (λ x, is_Some (f x)) l) (omap f l).
Proof.
  induction l as [|x l IH]; csimpl; [constructor|].
  rewrite filter_cons. destruct (f x) as [y|] eqn:E.
  - rewrite decide_True by eauto. by constructor.
  - rewrite decide_False by (by intros [? ?]). done.
Qed.

Lemma omap_single {A B} (f : A → option B) (l : list A) d y :
  NoDup l → d ∈ l → f d = Some y →
  (∀ x, x ∈ l → x ≠ d → f x = None) → omap f l = [y].
Proof.
  induction l as [|x l IH]; [by intros _ ?%elem_of_nil|].
  intros [Hx Hl]%NoDup_cons Hd Hf Hno. csimpl.
  assert (Hnil : d ∉ l → omap f l = []).
  { intros Hdl. clear IH Hd Hx Hl. induction l as [|z l IH]; [done|]. csimpl.
    rewrite (Hno z) by set_solver. apply IH; set_solver. }
  apply elem_of_cons in Hd as [<-|Hd].
  - rewrite Hf. by rewrite Hnil.
  - rewrite (Hno x) by set_solver. apply IH; set_solver.
Qed.

Lemma filter_all {A} (P : A → Prop) `{!∀ x, Decision (P x)} (l : list A) :
  (∀ x, x ∈ l → P x) → filter P l = l.
Proof.
  induction l as [|x l IH]; [done|]. intros Hall.
  rewrite filter_cons_True by (apply Hall; left).
  f_equal. apply IH. intros y Hy. apply Hall. by right.
Qed.

Lemma filter_none {A} (P : A → Prop) `{!∀ x, Decision (P x)} (l : list A) :
  (∀ x, x ∈ l → ¬ P x) → filter P l = [].
Proof.
  induction l as [|x l IH]; [done|]. intros Hall.
  rewrite filter_cons_False by (apply Hall; left).
  apply IH. intros y Hy. apply Hall. by right.
Qed.

Section SplitMore.
Context `{Collaborators}.

Lemma bare_set_control_index (f : DataRow → Z) (l : Data) :
  bare <$> ((λ r, set_control_index (f r) r) <$> l) = bare <$> l.
Proof. rewrite <-list_fmap_compose. by apply list_fmap_ext. Qed.

(** X8: splitting a product raises in one case only: a product without
    rows whose level is not [L0] makes the generator raise [IndexError]
    before it yields.  An empty [L0] product splits into nothing without an
    error, and a product with rows never makes the generator raise. *)
Theorem split_to_files_error (P : Product) :
  constructed P →
  (data P = [] →
     split_to_files P
     = ([], if bool_decide (level P = Some "L0") then None
            else Some IndexError))
  ∧ (data P ≠ [] → (split_to_files P).2 = None)
  ∧ (∀ e, (split_to_files P).2 = Some e →
       e = IndexError ∧ level P ≠ Some "L0" ∧ data P = []
       ∧ (split_to_files P).1 = []).
Proof.
  intros Hc.
  assert (He : data P = [] →
               split_to_files P
               = ([], if bool_decide (level P = Some "L0") then None
                      else Some IndexError)).
  { intros Hd. unfold split_to_files. rewrite Hd.
    case_bool_decide; [done|]. by rewrite scet_timerange_empty. }
  split_and!; [done| |].
  - intros Hd. rewrite split_to_files_yielded; [done|done|by right].
  - intros e Hr. destruct (decide (data P = [])) as [Hd|Hd].
    + rewrite (He Hd) in Hr |- *. case_bool_decide; [done|].
      by injection Hr as <-.
    + rewrite split_to_files_yielded in Hr; [done|done|by right].
Qed.

(** X9: the fragments come one per day, in strictly ascending order of the
    days, whatever the order of the rows: each holds, apart from
    [control_index], exactly the rows of its day in their order in the
    product, and at least one. *)
Theorem split_fragments_by_day (P : Product) :
  constructed P →
  ∃ days,
    StronglySorted Z.lt days
    ∧ Forall2 (λ d f,
         data f ≠ []
         ∧ bare <$> data f
           = bare <$> filter (λ r, day_of P r = d) (data P))
        days (split_to_files P).1.
Proof.
  intros Hc.
  exists (filter (λ d, is_Some (yielded P d)) (split_days P)). split.
  - apply StronglySorted_filter, split_days_sorted.
  - rewrite split_to_files_omap by done.
    eapply Forall2_impl; [apply omap_filter_Forall2|].
    intros d f Hy. simpl in Hy.
    apply yielded_inv in Hy as (Hr & m & refs & _ & Hd & _); [|done].
    rewrite Hd, bare_set_control_index, <-rows_of_filter. split; [|done].
    by destruct (rows_of P (data P) d).
Qed.
End SplitMore.

Section SplitLinks.
Context `{Collaborators}.

(** X10: a fragment keeps the links between its tables: its data rows are
    the rows of one day with their [control_index] lowered by the least
    [control_index] among them, and its control rows are exactly the control
    rows of the product that one of these rows references, in their order,
    with their [index] lowered by the same amount. *)
Theorem split_fragment_links (P : Product) f :
  constructed P → f ∈ (split_to_files P).1 →
  ∃ day m,
    let rows := filter (λ r, day_of P r = day) (data P) in
    (∃ r, r ∈ rows ∧ control_index r = m)
    ∧ (∀ r, r ∈ rows → m ≤ control_index r)
    ∧ data f = (λ r, set_control_index (control_index r - m) r) <$> rows
    ∧ control f
      = (λ c, set_index (index c - m) c)
        <$> filter (λ c, index c ∈ control_index <$> rows) (control P).
Proof.
  intros Hc Hf. apply split_to_files_elem_of in Hf as [day Hy].
  apply yielded_inv in Hy as (_ & m & refs & Hnp & Hd & Hctl & _); [|done].
  rewrite rows_of_filter in Hnp, Hd. exists day, m. simpl.
  pose proof (np_unique_sorted
                (control_index <$> filter (λ r, day_of P r = day) (data P)))
    as Hs.
  assert (Hel : ∀ i, i ∈ m :: refs
                     ↔ i ∈ control_index
                           <$> filter (λ r, day_of P r = day) (data P)).
  { intros i. rewrite <-Hnp. apply elem_of_np_unique. }
  rewrite Hnp in Hs. split_and!.
  - assert (Hm : m ∈ m :: refs) by left.
    apply Hel, list_elem_of_fmap in Hm as (r & -> & Hr). eauto.
  - intros r Hr.
    assert (Hi : control_index r ∈ m :: refs)
      by (apply Hel; by apply list_elem_of_fmap_2).
    apply elem_of_cons in Hi as [->|Hi]; [done|].
    inversion Hs as [|?? _ Hall]; subst. rewrite Forall_forall in Hall.
    specialize (Hall _ Hi). lia.
  - done.
  - rewrite Hctl. f_equal. apply list_filter_iff. intros c. apply Hel.
Qed.

(** X11: a product whose rows all fall on one day (a day that its time
    range touches, when the level is not [L0]), whose least [control_index]
    is 0 and whose control rows are all referenced, splits into one fragment
    with the tables of the product itself, its class, its level and its
    [idb_versions]. *)
Theorem split_single_day (P : Product) d :
  constructed P → data P ≠ [] →
  (∀ r, r ∈ data P → day_of P r = d) →
  (level P ≠ Some "L0" → d ∈ split_days P) →
  (∃ r, r ∈ data P ∧ control_index r = 0) →
  (∀ r, r ∈ data P → 0 ≤ control_index r) →
  (∀ c, c ∈ control P → ∃ r, r ∈ data P ∧ control_index r = index c) →
  ∃ f,
    split_to_files P = ([f], None)
    ∧ control f = control P ∧ data f = data P
    ∧ cls f = cls P ∧ level f = level P
    ∧ idb_versions f = idb_versions P.
Proof.
  intros Hc Hne Hday Hd0 (r0 & Hr0 & Hz) Hpos Href.
  assert (Hd : d ∈ split_days P).
  { destruct (decide (level P = Some "L0")) as [Hl|Hl]; [|by apply Hd0].
    pose proof (Hday _ Hr0) as Hd. unfold split_days, day_of in *.
    rewrite bool_decide_true in * by done.
    apply elem_of_np_unique. rewrite <-Hd.
    by apply (list_elem_of_fmap_2 (λ r, get_scedays (time r))). }
  assert (Hrows : rows_of P (data P) d = data P).
  { rewrite rows_of_filter. by apply filter_all. }
  assert (Hrd : rows_of P (data P) d ≠ []) by by rewrite Hrows.
  destruct (yielded_Some P d Hc Hrd)
    as (f & m & refs & Hy & _ & Hnp & Hdata & Hctl & Hcls & Hlv & Hidb).
  rewrite Hrows in Hnp, Hdata.
  pose proof (np_unique_sorted (control_index <$> data P)) as Hs.
  assert (Hel : ∀ i, i ∈ m :: refs ↔ i ∈ control_index <$> data P).
  { intros i. rewrite <-Hnp. apply elem_of_np_unique. }
  rewrite Hnp in Hs.
  assert (Hm : m = 0).
  { assert (Hm : m ∈ m :: refs) by left.
    apply Hel, list_elem_of_fmap in Hm as (r & -> & Hr).
    assert (Hi : 0 ∈ control_index r :: refs).
    { apply Hel. rewrite <-Hz. by apply list_elem_of_fmap_2. }
    apply Hpos in Hr. apply elem_of_cons in Hi as [Hi|Hi]; [lia|].
    inversion Hs as [|?? _ Hall]; subst. rewrite Forall_forall in Hall.
    specialize (Hall _ Hi). lia. }
  subst m. exists f. split_and!; try done.
  - rewrite split_to_files_yielded; [|done|by right]. f_equal.
    apply (omap_single _ _ d); [|done|done|].
    + apply StronglySorted_lt_NoDup, split_days_sorted.
    + intros d' _ Hne'. apply yielded_None. rewrite rows_of_filter.
      apply filter_none. intros r Hr Hd'. apply Hday in Hr. congruence.
  - rewrite Hctl, filter_all.
    + rewrite <-(list_fmap_id (control P)) at 2. apply list_fmap_ext.
      intros i c _. destruct c. unfold set_index. simpl. f_equal. lia.
    + intros c Hin. apply Hel. apply Href in Hin as (r & Hr & <-).
      by apply list_elem_of_fmap_2.
  - rewrite Hdata. rewrite <-(list_fmap_id (data P)) at 2.
    apply list_fmap_ext. intros i r _. destruct r.
    unfold set_control_index. simpl. f_equal. lia.
Qed.
End SplitLinks.

(** ** Split and merge *)

Section UniquePerm.
Context {A : Type} (key : A → Z).

Lemma first_of_NoDup_keys l r :
  NoDup (key <$> l) → first_of key l r ↔ r ∈ l.
Proof.
  intros Hnd. split; [apply first_of_elem_of|].
  induction l as [|x l IH]; [by intros ?%elem_of_nil|].
  csimpl in Hnd. apply NoDup_cons in Hnd as [Hx Hnd].
  intros Hin. apply first_of_cons.
  apply elem_of_cons in Hin as [->|Hin]; [by left|]. right.
  split; [|by apply IH]. intros Hk. apply Hx. rewrite Hk.
  by apply list_elem_of_fmap_2.
Qed.

Lemma unique_perm_sorted l l' :
  l ≡ₚ l' → StronglySorted (key_lt key) l' → unique key l = l'.
Proof.
  intros Hp Hs.
  apply (StronglySorted_unique_strong (key_lt key)).
  - intros x y _ _. unfold key_lt. lia.
  - apply unique_sorted.
  - done.
  - apply NoDup_Permutation.
    + apply (key_lt_NoDup key), unique_sorted.
    + by apply (key_lt_NoDup key).
    + intros r. rewrite elem_of_unique, first_of_NoDup_keys, Hp; [done|].
      rewrite Hp. by apply key_lt_NoDup_keys.
Qed.
End UniquePerm.

Lemma filter_two_days {A} (day : A → Z) d1 d2 (l : list A) :
  d1 ≠ d2 →
  filter (λ r, day r = d1) l ++ filter (λ r, day r = d2) l
  ≡ₚ filter (λ r, day r = d1 ∨ day r = d2) l.
Proof.
  intros Hne. induction l as [|x l IH]; [done|].
  rewrite !filter_cons.
  destruct (decide (day x = d1)) as [H1|H1],
    (decide (day x = d2)) as [H2|H2]; try congruence.
  - rewrite decide_True by by left. simpl. by rewrite IH.
  - rewrite decide_True by by right.
    rewrite <-Permutation_middle. by rewrite IH.
  - rewrite decide_False by tauto. done.
Qed.

Section SplitMerge.
Context `{Collaborators}.

(** X12: splitting and merging are inverse on the data: when the rounded
    time keys of a product are strictly ascending, the merge of two of its
    fragments, in either order, holds exactly the rows of the product on
    the two days, in their order, apart from [control_index]. *)
Theorem split_then_combine (P : Product) d1 d2 f1 f2 h h' R :
  constructed P →
  StronglySorted (key_lt row_key) (data P) →
  yielded P d1 = Some f1 → yielded P d2 = Some f2 → d1 ≠ d2 →
  combine h f1 f2 = Ok (h', R) →
  bare <$> data R
  = bare <$> filter (λ r, day_of P r = d1 ∨ day_of P r = d2) (data P).
Proof.
  intros Hc Hs Hy1 Hy2 Hne Hcomb.
  apply yielded_inv in Hy1 as (_ & m1 & ? & _ & Hd1 & _); [|done].
  apply yielded_inv in Hy2 as (_ & m2 & ? & _ & Hd2 & _); [|done].
  apply combine_inv in Hcomb as (_ & ra & rb & _ & _ & Ht & _).
  assert (Hd : data R = (combine_tables (start ra) (start rb) f1 f2).2)
    by by rewrite <-Ht.
  rewrite Hd, combine_tables_bare.
  set (key' := λ b : SCETime * SCETimeDelta * list Z, time_float b.1.1).
  assert (Hu : ∀ l : Data, bare <$> unique row_key l
                           = unique key' (bare <$> l)).
  { intros l. symmetry. apply (unique_fmap key' bare). }
  set (T := filter (λ r, day_of P r = d1 ∨ day_of P r = d2) (data P)).
  assert (HT : StronglySorted (key_lt row_key) T)
    by by apply StronglySorted_filter.
  assert (Hgoal : ∀ S : Data, S ≡ₚ T →
            unique key' (bare <$> S) = bare <$> T).
  { intros S HS. rewrite <-Hu. f_equal. by apply unique_perm_sorted. }
  rewrite Hu. unfold stacked_rows. rewrite Hd1, Hd2, !rows_of_filter.
  destruct (scet_leb (start ra) (start rb));
    rewrite fmap_app, !bare_set_control_index, <-fmap_app; apply Hgoal.
  - by apply filter_two_days.
  - rewrite Permutation_app_comm. by apply filter_two_days.
Qed.
End SplitMerge.

(** ** Level transitions: errors and sharing *)

Section LevelTransitionErrors.
Context `{Collaborators}.

Lemma set_parent_set_parent p q (t : Control) :
  set_parent q <$> (set_parent p <$> t) = set_parent q <$> t.
Proof. rewrite <-list_fmap_compose. by apply list_fmap_ext. Qed.

Lemma replace_parent_column_twice st a p q :
  replace_parent_column (replace_parent_column st a p) a q
  = replace_parent_column st a q.
Proof.
  unfold replace_parent_column.
  destruct (controls st !! a) as [t|] eqn:E; simpl; [|by rewrite E].
  rewrite list_lookup_insert_eq by by eapply lookup_lt_Some.
  by rewrite list_insert_insert_eq, set_parent_set_parent.
Qed.

(** X13: the errors of the level transitions differ in what they leave
    behind.  A service type that the class does not know raises [KeyError],
    and a class without the level mixins raises [AttributeError], with the
    store untouched and without a call of the engineering conversion; a
    predecessor without a FITS header makes [from_level1] raise
    [ValueError] ([AttributeError] when it is a [GenericProduct]) only after
    the parent column of its control table has been overwritten. *)
Theorem level_transition_errors
    (raw_to_engineering_product : Store → ProductRef → Store) st
    (P : ProductRef) new_parent :
  (service_name (service_type P) = Raise KeyError →
     from_level0 raw_to_engineering_product st DefaultProduct P new_parent
     = (st, Raise KeyError)
     ∧ from_level1 st DefaultProduct P new_parent = (st, Raise KeyError))
  ∧ from_level0 raw_to_engineering_product st GenericProduct P new_parent
    = (st, Raise AttributeError)
  ∧ from_level1 st GenericProduct P new_parent = (st, Raise AttributeError)
  ∧ (∀ n, service_name (service_type P) = Ok n → fits_header P = None →
       from_level1 st DefaultProduct P new_parent
       = (replace_parent_column st (control P) new_parent,
          Raise (match cls P with
                 | GenericProduct => AttributeError
                 | DefaultProduct => ValueError
                 end))
       ∧ controls (replace_parent_column st (control P) new_parent)
           !! control P
         = (fmap (set_parent new_parent)) <$> controls st !! control P).
Proof.
  split_and!.
  - intros He. unfold from_level0, from_level1, new_product.
    cbn [has_level_mixins negb]. by rewrite He.
  - done.
  - done.
  - intros n Hn Hf.
    destruct (new_default_product (service_type P) (service_subtype P)
                (ssid P) (control P) (data P) (idb_versions P) n Hn)
      as (p & Hp & Hcls & Hc & Hd & Hi & Hfp).
    split; [|apply replace_parent_column_spec].
    unfold from_level1. cbn [has_level_mixins negb]. rewrite Hp, Hc.
    f_equal. unfold get_fits_header. rewrite Hf.
    destruct (cls P); simpl; [done|].
    unfold set_fits_header. simpl. by rewrite Hcls.
Qed.

(** X14: products derived from one product share its control table with
    each other: when [from_level1] is applied twice to the same product
    with two parents, both results refer to the one table, and its parent
    column holds the second parent for both. *)
Theorem from_level1_siblings_share_parent st (P : ProductRef) hd n p1 p2 :
  service_name (service_type P) = Ok n → fits_header P = Some hd →
  ∃ a b st1 st2,
    from_level1 st DefaultProduct P p1 = (st1, Ok [a])
    ∧ from_level1 st1 DefaultProduct P p2 = (st2, Ok [b])
    ∧ control a = control P ∧ control b = control P
    ∧ st2 = replace_parent_column st (control P) p2
    ∧ controls st2 !! control a
      = (fmap (set_parent p2)) <$> controls st !! control P.
Proof.
  intros Hn Hf.
  destruct (new_default_product (service_type P) (service_subtype P)
              (ssid P) (control P) (data P) (idb_versions P) n Hn)
    as (p & Hp & Hcls & Hc & Hd & Hi & Hfp).
  assert (Hl : ∀ s q,
            ∃ l2, from_level1 s DefaultProduct P q
                  = (replace_parent_column s (control P) q, Ok [l2])
                  ∧ control l2 = control P).
  { intros s q. unfold from_level1. cbn [has_level_mixins negb].
    rewrite Hp, Hc. unfold get_fits_header. rewrite Hf.
    destruct (cls P); simpl; unfold set_fits_header; simpl; rewrite Hcls;
      eexists; (split; [done|]); simpl; done. }
  destruct (Hl st p1) as (a & Ha & Hca).
  destruct (Hl (replace_parent_column st (control P) p1) p2)
    as (b & Hb & Hcb).
  exists a, b. eexists _, _. split_and!; [done|done|done|done| |].
  - apply replace_parent_column_twice.
  - rewrite replace_parent_column_twice, Hca.
    apply replace_parent_column_spec.
Qed.
End LevelTransitionErrors.

(** ** Registration and dispatch *)

Section RegistrationFacts.
Import Factory.
Context {W : Type} `{EqDecision W}.

Lemma dict_set_new {V} (k : W) (v : V) d :
  k ∉ d.*1 → dict_set k v d = d ++ [(k, v)].
Proof.
  induction d as [|[k' v'] d IH]; [done|]. csimpl.
  intros Hk. apply not_elem_of_cons in Hk as [Hne Hk].
  rewrite decide_False by done. by rewrite IH.
Qed.

Lemma dict_set_keys {V} (k : W) (v : V) d :
  (dict_set k v d).*1 = if decide (k ∈ d.*1) then d.*1 else d.*1 ++ [k].
Proof.
  induction d as [|[k' v'] d IH]; [done|]. csimpl.
  destruct (decide (k = k')) as [->|Hne]; csimpl.
  - rewrite decide_True by left. done.
  - rewrite IH. destruct (decide (k ∈ d.*1)).
    + rewrite decide_True by by right. done.
    + rewrite decide_False; [done|]. by intros [?|?]%elem_of_cons.
Qed.

Lemma candidates_app (r1 r2 : list (W * (Attributes → bool))) d args :
  candidates (mkProductFactory (r1 ++ r2) d) args
  = candidates (mkProductFactory r1 d) args
    ++ candidates (mkProductFactory r2 d) args.
Proof. unfold candidates. simpl. by rewrite filter_app, fmap_app. Qed.

(** X15: dispatch does not depend on the order in which the classes were
    registered: two factories whose registries hold the same entries and
    that have the same default return the same class or raise the same
    error on all attributes. *)
Theorem dispatch_order_independent (f g : ProductFactory W)
    (args : Attributes) :
  registry f ≡ₚ registry g →
  default_widget_type f = default_widget_type g →
  _check_registered_widget f args = _check_registered_widget g args.
Proof.
  intros Hp Hd.
  assert (Hc : candidates f args ≡ₚ candidates g args).
  { unfold candidates. by rewrite Hp. }
  unfold _check_registered_widget. rewrite <-Hd.
  rewrite <-(Permutation_length Hc).
  destruct (candidates f args) as [|w [|w' l]] eqn:E; simpl.
  - done.
  - apply Permutation_singleton_l in Hc. by rewrite <-Hc.
  - done.
Qed.

(** X16: registering a new class with a validation function changes
    dispatch only for the attributes that the function accepts; there the
    new class is returned when no other class accepts them, and dispatch
    raises [MultipleMatchError] when another class does, also where it
    succeeded before.  Registration keeps the keys of the registry
    distinct, and a class without validation function is not registered. *)
Theorem register_then_dispatch (f : ProductFactory W) (cls : W)
    (validation : Attributes → bool) (args : Attributes) :
  cls ∉ (registry f).*1 →
  let f' := mkProductFactory
              (__init_subclass__ (registry f) cls (Some validation))
              (default_widget_type f) in
  (validation args = false →
     _check_registered_widget f' args = _check_registered_widget f args)
  ∧ (validation args = true →
       _check_registered_widget f' args
       = match candidates f args with
         | [] => Ok cls
         | others => Raise (MultipleMatchError (S (length others)))
         end)
  ∧ (NoDup (registry f).*1 → NoDup (registry f').*1)
  ∧ __init_subclass__ (registry f) cls None = registry f.
Proof.
  intros Hnew f'.
  assert (Hc : candidates f' args
               = candidates f args
                 ++ (if validation args then [cls] else [])).
  { unfold f'. simpl. rewrite dict_set_new by done.
    rewrite candidates_app. unfold candidates. simpl. f_equal.
    rewrite filter_cons. simpl. by destruct (validation args). }
  split_and!.
  - intros Hv. rewrite Hv, app_nil_r in Hc.
    unfold _check_registered_widget. by rewrite Hc.
  - intros Hv. rewrite Hv in Hc.
    unfold _check_registered_widget. rewrite Hc.
    destruct (candidates f args) as [|w l]; simpl; [done|].
    rewrite length_app. simpl.
    replace (length l + 1)%nat with (S (length l)) by lia. done.
  - intros Hnd. unfold f'. simpl. rewrite dict_set_keys.
    rewrite decide_False by done. apply NoDup_app. split_and!; [done| |].
    + intros x Hx ->%list_elem_of_singleton. done.
    + apply NoDup_singleton.
  - done.
Qed.
End RegistrationFacts.

(** ** The [time_stamp] column *)

Lemma shiftr_land_16 t :
  t = Z.shiftr t 16 * 65536 + Z.land t (Z.shiftl 1 16 - 1)
  ∧ 0 ≤ Z.land t (Z.shiftl 1 16 - 1) < 65536.
Proof.
  change (Z.shiftl 1 16 - 1) with (Z.ones 16).
  rewrite Z.land_ones, Z.shiftr_div_pow2 by lia.
  change (2 ^ 16) with 65536.
  pose proof (Z.div_mod t 65536). pose proof (Z.mod_pos_bound t 65536). lia.
Qed.

(** X17: the [time_stamp] column is decoded as a whole: when no value
    exceeds 2^32 - 1 every value is taken as the coarse time with fine
    time 0; as soon as one value exceeds it every value of the column,
    also the small ones, is split into its upper bits and its lower 16
    bits, so that [coarse * 65536 + fine] is the value again and [fine]
    is below 65536. *)
Theorem time_stamp_decoding (time_stamp : list Z) :
  let out := time_stamp_coarse_fine time_stamp in
  length out = length time_stamp
  ∧ (Forall (λ t, t ≤ 2 ^ 32 - 1) time_stamp →
       out = (λ t, (t, 0)) <$> time_stamp)
  ∧ (Exists (λ t, t > 2 ^ 32 - 1) time_stamp →
       Forall2 (λ t cf, t = cf.1 * 65536 + cf.2 ∧ 0 ≤ cf.2 < 65536
                        ∧ cf.1 = t `div` 65536)
         time_stamp out).
Proof.
  unfold time_stamp_coarse_fine. cbv zeta. split_and!.
  - case_bool_decide; by rewrite length_fmap.
  - intros Hall. rewrite bool_decide_false; [done|].
    intros Hex. apply Exists_exists in Hex as (t & Ht & Hgt).
    rewrite Forall_forall in Hall. specialize (Hall _ Ht). simpl in *. lia.
  - intros Hex. rewrite bool_decide_true by done.
    apply Forall2_fmap_r, Forall_Forall2_diag, Forall_forall.
    intros t _. pose proof (shiftr_land_16 t) as [? ?].
    split_and!; unfold fst, snd; [done|lia|lia|].
    by rewrite Z.shiftr_div_pow2 by lia.
Qed.

(** ** The record of the IDB versions *)

Section IdbTracking.
Context `{Collaborators}.

(** X18: the record of IDB versions that [getLeveL0Packets] builds holds
    exactly the versions of the packets, and the range it holds for a
    version covers the time of every packet of that version; the ranges
    are new objects, no existing range is changed. *)
Theorem getLeveL0Packets_covers h (packets : list (string * SCETime)) :
  let h' := (getLeveL0Packets h packets).1 in
  let idb_versions := (getLeveL0Packets h packets).2 in
  (∀ version, is_Some (idb_versions !! version) ↔ version ∈ packets.*1)
  ∧ (∀ version datetime, (version, datetime) ∈ packets →
       ∃ a, idb_versions !! version = Some a
            ∧ scet_le (start (deref h' a)) datetime
            ∧ scet_le datetime (end_ (deref h' a)))
  ∧ (∀ a, (a < length h)%nat → h' !! a = h !! a)
  ∧ (∀ version a, idb_versions !! version = Some a →
       (length h ≤ a < length h')%nat).
Proof.
  unfold getLeveL0Packets. cbv zeta.
  induction packets as [|[v t] l IH] using rev_ind.
  - simpl. split_and!.
    + intros v. rewrite lookup_empty. split; [by intros [? ?]|].
      by intros ?%elem_of_nil.
    + by intros ?? ?%elem_of_nil.
    + done.
    + intros ??. by rewrite lookup_empty.
  - rewrite foldl_app. simpl.
    destruct (foldl _ (h, ∅) l) as [h1 d1] eqn:E. simpl in IH.
    destruct IH as (Hdom & Hcov & Hfr & Hfresh).
    assert (Hb1 : built h h1 d1).
    { split; [done| |done].
      destruct (decide (length h ≤ length h1)%nat); [done|].
      assert (Hlt : (length h1 < length h)%nat) by lia.
      specialize (Hfr _ Hlt). rewrite (lookup_ge_None_2 h1) in Hfr by lia.
      apply lookup_lt_is_Some_2 in Hlt as [? Hx]. congruence. }
    assert (Hgoal : ∀ h2 d2 tg, built h h2 d2 →
              d2 !! v = Some tg →
              (∀ v', is_Some (d2 !! v') ↔ v' ∈ (l ++ [(v, t)]).*1) →
              (∀ v' t', (v', t') ∈ l →
                 ∃ a, d2 !! v' = Some a
                      ∧ scet_le (start (deref h2 a)) t'
                      ∧ scet_le t' (end_ (deref h2 a))) →
              let h3 := <[tg := expand_time (deref h2 tg) t]> h2 in
              (∀ v', is_Some (d2 !! v') ↔ v' ∈ (l ++ [(v, t)]).*1)
              ∧ (∀ v' t', (v', t') ∈ l ++ [(v, t)] →
                   ∃ a, d2 !! v' = Some a
                        ∧ scet_le (start (deref h3 a)) t'
                        ∧ scet_le t' (end_ (deref h3 a)))
              ∧ (∀ a, (a < length h)%nat → h3 !! a = h !! a)
              ∧ (∀ v' a, d2 !! v' = Some a →
                   (length h ≤ a < length h3)%nat)).
    { intros h2 d2 tg Hb2 Htg Hdom2 Hcov2 h3.
      pose proof (built_fresh _ _ _ Hb2 _ _ Htg) as Hr.
      assert (Hb3 : built h h3 d2) by (apply built_expand; [done|lia]).
      split_and!; [done| |apply Hb3|apply Hb3].
      intros v' t' [Hin|Hin%list_elem_of_singleton]%elem_of_app.
      - destruct (Hcov2 _ _ Hin) as (a & Ha & Hs & He).
        exists a. split; [done|]. unfold h3. rewrite deref_insert by lia.
        case_decide; [subst a|done].
        pose proof (expand_covers_self (deref h2 tg) (mkSCETimeRange t t))
          as [Hs' He'].
        split; [by etrans|by etrans].
      - simplify_eq. exists tg. split; [done|].
        unfold h3. rewrite deref_insert by lia. rewrite decide_True by done.
        pose proof (expand_covers_other (deref h2 tg) (mkSCETimeRange t t))
          as [Hs' He']. done. }
    destruct (d1 !! v) as [tg|] eqn:Hv; simpl.
    + apply Hgoal; [done|done| |done].
      intros v'. rewrite Hdom, fmap_app, elem_of_app. simpl.
      rewrite list_elem_of_singleton. split; [by left|].
      intros [? | ->]; [done|]. apply Hdom. eauto.
    + apply Hgoal.
      * by apply built_alloc.
      * by rewrite lookup_insert_eq.
      * intros v'. rewrite fmap_app, elem_of_app. simpl.
        rewrite list_elem_of_singleton.
        destruct (decide (v = v')) as [<-|Hne].
        -- rewrite lookup_insert_eq. split; [by right|eauto].
        -- rewrite lookup_insert_ne by done. rewrite Hdom. naive_solver.
      * intros v' t' Hin. destruct (Hcov _ _ Hin) as (a & Ha & Hs & He).
        exists a. split.
        -- rewrite lookup_insert_ne; [done|]. congruence.
        -- apply Hfresh in Ha. by rewrite deref_app_l by lia.
Qed.
End IdbTracking.

(** ** The command line of the pipeline *)

Section PipelineFacts.
Import Pipeline.
Context {File : Type}.

(** X19: [ProductLevel.from_str] inverts [str] on the members of the enum
    and never fails: a label that is, in upper case, the name of no member
    gives [TM].  Upper case is to leave the six names as they are. *)
Theorem from_str_round_trip (upper : string → string) :
  (∀ e, upper (name e) = name e) →
  (∀ e, from_str upper (name e) = e)
  ∧ (∀ label, (∀ e, name e ≠ upper label) → from_str upper label = TM)
  ∧ (∀ label, from_str upper label = TM
              ∨ name (from_str upper label) = upper label).
Proof.
  intros Hup. split_and!.
  - intros e. unfold from_str. rewrite Hup. by destruct e.
  - intros label Hno. unfold from_str. cbv zeta.
    rewrite filter_none; [done|]. intros e _ He. by apply (Hno e).
  - intros label. unfold from_str. cbv zeta.
    destruct (filter (λ e, name e = upper label) members) as [|e l] eqn:E;
      [by left|].
    right. simpl.
    assert (He : e ∈ filter (λ e, name e = upper label) members)
      by (rewrite E; left).
    by apply list_elem_of_filter in He as [He _].
Qed.

(** X20: which steps [main] runs.  A start level above the end level
    raises [ValueError] before any step.  Otherwise the step to [L0],
    [L1] or [L2] runs exactly when that level lies between the start and
    the end level, on the files of the level below, which are the output of
    the step before or, at the start level, the input files or the files
    found in the archive; the step from telemetry to [LB] runs whenever the
    start level is [TM] or [LB], whatever the end level; and the start
    level [ALL] runs nothing. *)
Theorem main_stages (upper : string → string)
    (lb : list File → option string → list File)
    (rglob : string → string → list File)
    (l0 l1 l2 : list File → list File) (args : Namespace)
    (input_files : list File) :
  let s := from_str upper (start_level args) in
  let e := from_str upper (end_level args) in
  let run := main upper (λ i f, Ok (lb i f)) rglob (λ x, Ok (l0 x))
               (λ x, Ok (l1 x)) (λ x, Ok (l2 x)) args input_files in
  (value e < value s → run = Raise ValueError)
  ∧ (value s ≤ value e →
     ∃ r, run = Ok r
       ∧ (value s ≤ value LB → at_LB r = lb input_files (filter_ args))
       ∧ (s = L0 → at_LB r = (seed rglob (filter_ args) input_files "LB").1)
       ∧ (value L0 < value s → at_LB r = [])
       ∧ (value s ≤ value L0 ≤ value e → at_L0 r = l0 (at_LB r))
       ∧ (s = L1 → at_L0 r = (seed rglob (filter_ args) input_files "L0").1)
       ∧ (value e < value L0 ∨ value L1 < value s → at_L0 r = [])
       ∧ (value s ≤ value L1 ≤ value e → at_L1 r = l1 (at_L0 r))
       ∧ (s = L2 → at_L1 r = (seed rglob (filter_ args) input_files "L1").1)
       ∧ (value e < value L1 ∨ value L2 < value s → at_L1 r = [])
       ∧ (value s ≤ value L2 ≤ value e → at_L2 r = l2 (at_L1 r))
       ∧ (value e < value L2 ∨ value L2 < value s → at_L2 r = [])).
Proof.
  intros s e run. unfold run, main. fold s e. clearbody s e.
  unfold seed. split.
  - intros Hlt. destruct s, e; simpl in Hlt; try lia; done.
  - intros Hle.
    destruct s, e; simpl in Hle; try lia; simpl;
      (eexists; split; [done|]); simpl;
      split_and!; intros; try done; try (exfalso; simpl in *; lia).
Qed.
End PipelineFacts.

(** ** The further properties on the examples *)

Section ExtraWitnesses.
Local Existing Instance reference_clock.

(** X1 on [example_D + example_A]: the range of [example_A] starts first,
    so its sample at time 1 is the one that is kept. *)
Lemma combine_overlap_first_wins_witness :
  combine example_heap example_D example_A = Ok example_merge_DA
  ∧ ∃ ra rb,
      scet_timerange (data example_D) = Ok ra
      ∧ scet_timerange (data example_A) = Ok rb
      ∧ let W := if scet_leb (start ra) (start rb) then data example_D
                 else data example_A in
        let L := if scet_leb (start ra) (start rb) then data example_A
                 else data example_D in
        ∀ b, b ∈ bare <$> data example_merge_DA.2
             ↔ (∃ w, first_of row_key W w ∧ bare w = b)
               ∨ (∃ l, first_of row_key L l
                       ∧ (∀ w, w ∈ W → row_key w ≠ row_key l) ∧ bare l = b).
Proof.
  split; [reflexivity|].
  apply (combine_overlap_first_wins example_heap example_D example_A
           example_merge_DA.1 example_merge_DA.2).
  reflexivity.
Defined.

(** X2 on [example_D + example_A]. *)
Lemma combine_keys_union_witness :
  StronglySorted (key_lt row_key) (data example_merge_DA.2)
  ∧ (∀ k, k ∈ row_key <$> data example_merge_DA.2
          ↔ k ∈ row_key <$> data example_D ++ data example_A)
  ∧ (length (data example_merge_DA.2)
     ≤ length (data example_D) + length (data example_A))%nat.
Proof.
  apply (combine_keys_union example_heap example_D example_A
           example_merge_DA.1 example_merge_DA.2).
  reflexivity.
Defined.

(** X3 on [example_A + example_A]. *)
Lemma combine_idempotent_witness :
  bare <$> data example_merge_AA.2 = bare <$> unique row_key (data example_A)
  ∧ (StronglySorted (key_lt row_key) (data example_A) →
       bare <$> data example_merge_AA.2 = bare <$> data example_A).
Proof.
  apply (combine_idempotent example_heap example_A
           example_merge_AA.1 example_merge_AA.2).
  reflexivity.
Defined.

(** X4 on [example_A] and [example_B], whose ranges start at 0 and at
    half a second. *)
Lemma combine_commutative_data_witness :
  bare <$> data example_merge_AB.2 = bare <$> data example_merge_BA.2.
Proof.
  apply (combine_commutative_data example_heap example_A example_B
           example_merge_AB.1 example_merge_AB.2
           example_merge_BA.1 example_merge_BA.2
           (mkSCETimeRange (mkSCETime 0 0) (mkSCETime 1 0))
           (mkSCETimeRange (mkSCETime 0 32768) (mkSCETime 2 0))).
  - reflexivity.
  - reflexivity.
  - reflexivity.
  - reflexivity.
  - left. discriminate.
Defined.


(** X6 on [example_D + example_A], with columns of 8 bits. *)
Lemma combine_preserves_links_witness :
  __add__ numpy_wrap 8 8 example_heap example_D example_A
  = Ok example_merge_DA
  ∧ ∀ r, r ∈ data example_merge_DA.2 →
    ∃ X r0, (X = example_D ∨ X = example_A) ∧ r0 ∈ data X
      ∧ bare r = bare r0
      ∧ ∀ c, c ∈ control example_merge_DA.2 ∧ index c = control_index r
             ↔ ∃ c0, c0 ∈ control X ∧ index c0 = control_index r0
                     ∧ c = set_index (control_index r) c0.
Proof.
  split; [reflexivity|].
  apply (combine_preserves_links numpy_wrap 8 8 example_heap example_D
           example_A example_merge_DA.1 example_merge_DA.2).
  - reflexivity.
  - by vm_compute.
  - by vm_compute.
Defined.

(** X7 on [example_A + example_B]: version 2.26.34 is in both, version
    2.26.35 in [example_B] alone. *)
Lemma combine_idb_versions_exact_witness :
  (∀ k, idb_versions example_merge_AB.2 !! k ≫= (example_merge_AB.1 !!.)
        = merged_range example_heap (idb_versions example_A)
            (idb_versions example_B) k)
  ∧ (∀ k, is_Some (idb_versions example_merge_AB.2 !! k)
          ↔ is_Some (idb_versions example_A !! k)
            ∨ is_Some (idb_versions example_B !! k))
  ∧ (∀ k k' a, idb_versions example_merge_AB.2 !! k = Some a →
       idb_versions example_merge_AB.2 !! k' = Some a → k = k').
Proof.
  apply (combine_idb_versions_exact example_heap example_A example_B
           example_merge_AB.1 example_merge_AB.2).
  - reflexivity.
  - intros k a Hk. unfold example_A, generic_product in Hk.
    cbn [idb_versions] in Hk.
    apply lookup_singleton_Some in Hk as [_ <-]. simpl. lia.
  - intros k a Hk. unfold example_B, generic_product in Hk.
    cbn [idb_versions] in Hk.
    apply lookup_insert_Some in Hk as [[_ <-]|[_ Hk]]; [simpl; lia|].
    apply lookup_singleton_Some in Hk as [_ <-]. simpl. lia.
Defined.

(** X8 on the empty [DefaultProduct], which is at level L0. *)
Lemma split_to_files_error_witness :
  (data example_empty_default = [] →
     split_to_files example_empty_default
     = ([], if bool_decide (level example_empty_default = Some "L0")
            then None else Some IndexError))
  ∧ (data example_empty_default ≠ [] →
       (split_to_files example_empty_default).2 = None)
  ∧ (∀ e, (split_to_files example_empty_default).2 = Some e →
       e = IndexError ∧ level example_empty_default ≠ Some "L0"
       ∧ data example_empty_default = []
       ∧ (split_to_files example_empty_default).1 = []).
Proof. apply (split_to_files_error example_empty_default). reflexivity. Defined.

(** X9 on the product with samples on three days. *)
Lemma split_fragments_by_day_witness :
  ∃ days,
    StronglySorted Z.lt days
    ∧ Forall2 (λ d f,
         data f ≠ []
         ∧ bare <$> data f
           = bare <$> filter (λ r, day_of example_three_days r = d)
                        (data example_three_days))
        days (split_to_files example_three_days).1.
Proof. apply (split_fragments_by_day example_three_days). exact I. Defined.

(** X10 on the fragment of day 103. *)
Lemma split_fragment_links_witness :
  ∃ day m,
    let rows := filter (λ r, day_of example_three_days r = day)
                  (data example_three_days) in
    (∃ r, r ∈ rows ∧ control_index r = m)
    ∧ (∀ r, r ∈ rows → m ≤ control_index r)
    ∧ data example_fragment_103
      = (λ r, set_control_index (control_index r - m) r) <$> rows
    ∧ control example_fragment_103
      = (λ c, set_index (index c - m) c)
        <$> filter (λ c, index c ∈ control_index <$> rows)
              (control example_three_days).
Proof.
  apply (split_fragment_links example_three_days example_fragment_103).
  - exact I.
  - vm_compute. do 2 apply list_elem_of_further. apply list_elem_of_here.
Defined.

(** X11 on [example_A], whose two samples are on day 0. *)
Lemma split_single_day_witness :
  ∃ f,
    split_to_files example_A = ([f], None)
    ∧ control f = control example_A ∧ data f = data example_A
    ∧ cls f = cls example_A ∧ level f = level example_A
    ∧ idb_versions f = idb_versions example_A.
Proof.
  apply (split_single_day example_A 0).
  - exact I.
  - discriminate.
  - intros r Hr. list_cases Hr; reflexivity.
  - intros Hl. by destruct Hl.
  - exists (sample 0 0 0 10). split; [apply list_elem_of_here|reflexivity].
  - intros r Hr. list_cases Hr; simpl; lia.
  - intros c Hc. list_cases Hc. exists (sample 0 0 0 10).
    split; [apply list_elem_of_here|reflexivity].
Defined.

(** X12 on the fragments of the days 100 and 101. *)
Lemma split_then_combine_witness :
  bare <$> data example_merge_100_101.2
  = bare <$> filter (λ r, day_of example_three_days r = 100
                          ∨ day_of example_three_days r = 101)
               (data example_three_days).
Proof.
  apply (split_then_combine example_three_days 100 101 example_fragment_100
           example_fragment_101 example_heap example_merge_100_101.1
           example_merge_100_101.2).
  - exact I.
  - by apply (bool_decide_unpack _); vm_compute.
  - reflexivity.
  - reflexivity.
  - discriminate.
  - reflexivity.
Defined.

(** X14 on the example store: the control table holds the second parent. *)
Lemma from_level1_siblings_share_parent_witness :
  ∃ a b st1 st2,
    from_level1 example_store DefaultProduct example_ref "first.fits"
    = (st1, Ok [a])
    ∧ from_level1 st1 DefaultProduct example_ref "second.fits"
      = (st2, Ok [b])
    ∧ control a = control example_ref ∧ control b = control example_ref
    ∧ st2 = replace_parent_column example_store (control example_ref)
              "second.fits"
    ∧ controls st2 !! control a
      = (fmap (set_parent "second.fits"))
        <$> controls example_store !! control example_ref.
Proof.
  apply (from_level1_siblings_share_parent example_store example_ref
           [("LEVEL", "L1")] "events" "first.fits" "second.fits");
    reflexivity.
Defined.
End ExtraWitnesses.

(** X15 on the example registry followed by a second class, and the same
    two entries in the other order. *)
Lemma dispatch_order_independent_witness :
  Factory._check_registered_widget
    (Factory.mkProductFactory
       (example_registry ++ [(DefaultProduct, λ _, false)]) None)
    example_attributes
  = Factory._check_registered_widget
      (Factory.mkProductFactory
         ((DefaultProduct, λ _, false) :: example_registry) None)
      example_attributes.
Proof.
  apply (dispatch_order_independent
           (Factory.mkProductFactory
              (example_registry ++ [(DefaultProduct, λ _, false)]) None)
           (Factory.mkProductFactory
              ((DefaultProduct, λ _, false) :: example_registry) None)
           example_attributes).
  - simpl. apply Permutation_swap.
  - reflexivity.
Defined.

(** X16 on the example registry: a second class that accepts service type
    21 as well makes the dispatch of the example attributes fail. *)
Lemma register_then_dispatch_witness :
  let f := Factory.mkProductFactory example_registry None in
  let f' := Factory.mkProductFactory
              (__init_subclass__ (Factory.registry f) DefaultProduct
                 (Some example_validation))
              (Factory.default_widget_type f) in
  Factory._check_registered_widget f example_attributes = Ok GenericProduct
  ∧ (example_validation example_attributes = false →
       Factory._check_registered_widget f' example_attributes
       = Factory._check_registered_widget f example_attributes)
  ∧ (example_validation example_attributes = true →
       Factory._check_registered_widget f' example_attributes
       = match Factory.candidates f example_attributes with
         | [] => Ok DefaultProduct
         | others => Raise (MultipleMatchError (S (length others)))
         end)
  ∧ (NoDup (Factory.registry f).*1 → NoDup (Factory.registry f').*1)
  ∧ __init_subclass__ (Factory.registry f) DefaultProduct None
    = Factory.registry f.
Proof.
  split; [reflexivity|].
  apply (register_then_dispatch
           (Factory.mkProductFactory example_registry None) DefaultProduct
           example_validation example_attributes).
  simpl. apply not_elem_of_cons. split; [discriminate|apply not_elem_of_nil].
Defined.

(** X19 with the upper case of the ASCII letters. *)
Lemma from_str_round_trip_witness :
  (∀ e, Pipeline.from_str ascii_upper (Pipeline.name e) = e)
  ∧ (∀ label, (∀ e, Pipeline.name e ≠ ascii_upper label) →
       Pipeline.from_str ascii_upper label = Pipeline.TM)
  ∧ (∀ label, Pipeline.from_str ascii_upper label = Pipeline.TM
              ∨ Pipeline.name (Pipeline.from_str ascii_upper label)
                = ascii_upper label).
Proof.
  apply (from_str_round_trip ascii_upper). intros e. by destruct e.
Defined.
